(** * dailyReportCheckBot: the daily report check of [bot.py]

    A shallow embedding of [_today_range] and [check_reports] and of the
    parts of the Discord client they call, followed by the properties the
    specification states about them. *)

From Stdlib Require Import ZArith Lia Bool.
From Stdlib Require DecimalString DecimalN DecimalPos.
From stdpp Require Import base decidable list gmap sets strings.

Local Open Scope Z_scope.

(** ** Exceptions and results

    The classes of exception the code distinguishes.  [NotFound] and
    [Forbidden] are subclasses of [HTTPException] in discord.py; every
    class below is a subclass of Python's [Exception]. *)

Inductive exn : Type :=
| NotFound
| Forbidden
| HTTPException
| AttributeError
| OverflowError
| OtherException.

(** [isinstance(e, discord.HTTPException)] *)
Definition is_HTTPException (e : exn) : bool :=
  match e with
  | NotFound | Forbidden | HTTPException => true
  | _ => false
  end.

Inductive outcome (A : Type) : Type :=
| Ok (a : A)
| Raise (e : exn).
Arguments Ok {A} a.
Arguments Raise {A} e.

(** ** Dates and times

    An aware [datetime]: the local calendar fields and the offset of the
    zone from UTC in seconds. *)

Module Calendar.

Record datetime : Type := mk_datetime {
  year : Z; month : Z; day : Z;
  hour : Z; minute : Z; second : Z; microsecond : Z;
  utcoffset : Z
}.

(** Asia/Seoul: UTC+9, no daylight saving. *)
Definition KST : Z := 9 * 3600.

Definition MINYEAR : Z := 1.
Definition MAXYEAR : Z := 9999.

Definition _is_leap (y : Z) : bool :=
  (y mod 4 =? 0) && (negb (y mod 100 =? 0) || (y mod 400 =? 0)).

Definition _days_in_month (y m : Z) : Z :=
  if (m =? 2) && _is_leap y then 29
  else match m with
       | 1 => 31 | 2 => 28 | 3 => 31 | 4 => 30 | 5 => 31 | 6 => 30
       | 7 => 31 | 8 => 31 | 9 => 30 | 10 => 31 | 11 => 30 | 12 => 31
       | _ => 0
       end.

Definition _DAYS_BEFORE_MONTH (m : Z) : Z :=
  match m with
  | 1 => 0 | 2 => 31 | 3 => 59 | 4 => 90 | 5 => 120 | 6 => 151
  | 7 => 181 | 8 => 212 | 9 => 243 | 10 => 273 | 11 => 304 | 12 => 334
  | _ => 0
  end.

Definition _days_before_month (y m : Z) : Z :=
  _DAYS_BEFORE_MONTH m + (if (2 <? m) && _is_leap y then 1 else 0).

Definition _days_before_year (y : Z) : Z :=
  let y' := y - 1 in y' * 365 + y' / 4 - y' / 100 + y' / 400.

Definition _ymd2ord (y m d : Z) : Z :=
  _days_before_year y + _days_before_month y m + d.

Definition toordinal (t : datetime) : Z :=
  _ymd2ord (year t) (month t) (day t).

Definition valid_date (y m d : Z) : Prop :=
  MINYEAR <= y <= MAXYEAR /\ 1 <= m <= 12 /\ 1 <= d <= _days_in_month y m.

Definition valid_datetime (t : datetime) : Prop :=
  valid_date (year t) (month t) (day t) /\
  0 <= hour t < 24 /\ 0 <= minute t < 60 /\ 0 <= second t < 60 /\
  0 <= microsecond t < 1000000.

(** [t.replace(hour=h, minute=mi, second=s, microsecond=us)] *)
Definition replace (t : datetime) (h mi s us : Z) : datetime :=
  {| year := year t; month := month t; day := day t;
     hour := h; minute := mi; second := s; microsecond := us;
     utcoffset := utcoffset t |}.

(** The calendar day before [(y, m, d)]. *)
Definition prev_day (y m d : Z) : Z * Z * Z :=
  if 1 <? d then (y, m, d - 1)
  else if 1 <? m then (y, m - 1, _days_in_month y (m - 1))
  else (y - 1, 12, 31).

(** [t - timedelta(days=1)]: the same wall-clock time on the day whose
    ordinal is one less; the first representable day has no predecessor and
    the subtraction raises [OverflowError]. *)
Definition sub_one_day (t : datetime) : outcome datetime :=
  if toordinal t <=? 1 then Raise OverflowError
  else
    let '(y, m, d) := prev_day (year t) (month t) (day t) in
    Ok {| year := y; month := m; day := d;
          hour := hour t; minute := minute t; second := second t;
          microsecond := microsecond t; utcoffset := utcoffset t |}.

(** [_today_range], with the reading of the clock [datetime.now(KST)] as
    its argument. *)
Definition _today_range (now : datetime) : outcome (datetime * datetime) :=
  let start := replace now 18 0 0 0 in
  let end_ := replace now 23 59 59 0 in
  if hour now <? 6 then
    match sub_one_day start with
    | Raise e => Raise e
    | Ok start' =>
        match sub_one_day end_ with
        | Raise e => Raise e
        | Ok end' => Ok (start', end')
        end
    end
  else Ok (start, end_).

(** A window is anchored on a day when it runs from 18:00:00 to 23:59:59 of
    that day, in the zone at offset [tz]. *)
Definition anchored_on (y m d tz : Z) (w : datetime * datetime) : Prop :=
  let '(s, e) := w in
  (year s, month s, day s) = (y, m, d) /\
  (hour s, minute s, second s, microsecond s) = (18, 0, 0, 0) /\
  (year e, month e, day e) = (y, m, d) /\
  (hour e, minute e, second e, microsecond e) = (23, 59, 59, 0) /\
  utcoffset s = tz /\ utcoffset e = tz.

End Calendar.

(** ** Floats

    Python's [float] is the IEEE 754 binary64 format.  A value is kept here
    as a fraction [(a, b)], [b] positive, and every operation rounds its
    exact result to the nearest value with a 53-bit significand, ties to
    even.  The numbers of this program are far from the subnormal and the
    overflow range. *)

Module Binary64.

Definition float : Type := Z * Z.

(** The [e] with [2^e <= n/d < 2^(e+1)], for positive [n] and [d]. *)
Definition binade (n d : Z) : Z :=
  if d <=? n then Z.log2 (n / d)
  else - Z.log2_up ((d + n - 1) / n).

(** [n/d] rounded to the nearest integer, ties to even. *)
Definition round_half_even (n d : Z) : Z :=
  let f := n / d in
  let r := n mod d in
  if 2 * r <? d then f
  else if d <? 2 * r then f + 1
  else if Z.even f then f else f + 1.

Definition round_pos (n d : Z) : float :=
  let k := 52 - binade n d in
  if 0 <=? k then (round_half_even (n * 2 ^ k) d, 2 ^ k)
  else (round_half_even n (d * 2 ^ (- k)) * 2 ^ (- k), 1).

(** The float nearest to [n/d]. *)
Definition round (n d : Z) : float :=
  if n =? 0 then (0, 1)
  else if 0 <? n then round_pos n d
  else let '(a, b) := round_pos (- n) d in (- a, b).

(** [x * c] for an integer [c] that is a float. *)
Definition mul_int (x : float) (c : Z) : float :=
  round (fst x * c) (snd x).

(** [x - c] for an integer [c] that is a float. *)
Definition sub_int (x : float) (c : Z) : float :=
  round (fst x - c * snd x) (snd x).

(** [int(x)]: towards zero. *)
Definition trunc (x : float) : Z := Z.quot (fst x) (snd x).

(** The float [x] is the integer [v]. *)
Definition is_integer (x : float) (v : Z) : Prop :=
  0 < snd x /\ fst x = v * snd x.

End Binary64.

(** ** The Discord objects the check reads *)

Module Discord.
Import Calendar.

(** Milliseconds between the Unix epoch and the first second of 2015. *)
Definition DISCORD_EPOCH : Z := 1420070400000.

(** The moment of [t] in milliseconds since the Unix epoch, rounded down:
    the exact measure of time that the properties use.  719163 is the
    ordinal of 1970-01-01. *)
Definition timestamp_ms (t : datetime) : Z :=
  ((toordinal t - 719163) * 86400
   + hour t * 3600 + minute t * 60 + second t - utcoffset t) * 1000
  + microsecond t / 1000.

(** [(t - EPOCH) // timedelta(microseconds=1)]: the microseconds between
    the Unix epoch and [t]. *)
Definition total_microseconds (t : datetime) : Z :=
  ((toordinal t - 719163) * 86400
   + hour t * 3600 + minute t * 60 + second t - utcoffset t) * 1000000
  + microsecond t.

(** [dt.timestamp()]: the microseconds divided by [10**6], as a float. *)
Definition timestamp (t : datetime) : Binary64.float :=
  Binary64.round (total_microseconds t) 1000000.

(** [int(dt.timestamp() * 1000 - DISCORD_EPOCH)], in the float arithmetic
    of Python. *)
Definition float_millis (t : datetime) : Z :=
  Binary64.trunc
    (Binary64.sub_int (Binary64.mul_int (timestamp t) 1000) DISCORD_EPOCH).

(** [discord_millis] of [time_snowflake].  For a datetime without
    microseconds every step of the float computation is exact, and the
    integer value is taken directly. *)
Definition discord_millis (t : datetime) : Z :=
  if microsecond t =? 0 then timestamp_ms t - DISCORD_EPOCH
  else float_millis t.

(** [discord.utils.time_snowflake(dt, high=high)] *)
Definition time_snowflake (t : datetime) (high : bool) : Z :=
  Z.shiftl (discord_millis t) 22 + (if high then 2 ^ 22 - 1 else 0).

(** [discord.utils.snowflake_time(id)], in milliseconds since the Unix
    epoch: when the object with this identifier was created. *)
Definition snowflake_time (id : Z) : Z :=
  Z.shiftr id 22 + DISCORD_EPOCH.

Record Message : Type := mk_message {
  msg_id : Z;
  author_id : Z
}.

(** A guild member as the check sees it: [read_messages] is what
    [channel.permissions_for(member).read_messages] evaluates to and
    [send_result] what [member.send(...)] does. *)
Record Member : Type := mk_member {
  m_id : Z;
  bot : bool;
  display_name : string;
  mention : string;
  read_messages : outcome bool;
  send_result : outcome unit
}.

(** [guild.fetch_members(limit=None)] yields [g_members] and then, when
    [g_members_error] is set, raises it. *)
Record Guild : Type := mk_guild {
  g_id : Z;
  g_members : list Member;
  g_members_error : option exn
}.

Record Channel : Type := mk_channel {
  ch_id : Z;
  guild : option Guild;
  ch_messages : list Message;
  ch_history_error : option exn;
  ch_send : string -> outcome unit
}.

(** What one run finds: the clock, the configuration and the answers of
    the Discord API. *)
Record World : Type := mk_world {
  now : datetime;
  REPORT_CHANNEL_ID : Z;
  TARGET_MEMBER_IDS : gset Z;
  fetch_channel : outcome Channel;
  bot_user_available : bool
}.

(** [channel.history(after=start, before=end, limit=None)]: both bounds are
    turned into snowflakes and the API returns the messages whose
    identifier lies strictly between them. *)
Fixpoint history (msgs : list Message) (after before : datetime)
  : list Message :=
  match msgs with
  | [] => []
  | m :: rest =>
      if (time_snowflake after true <? msg_id m)
         && (msg_id m <? time_snowflake before false)
      then m :: history rest after before
      else history rest after before
  end.

End Discord.

(** ** Effects: what a run logs, prints and sends *)

Module Run.
Import Calendar Discord.

Inductive log_record : Type :=
| Error_channel_not_found (cid : Z)
| Error_channel_forbidden (cid : Z)
| Error_channel_fetch (cid : Z) (e : exn)
| Info_checking (start end_ : datetime) (cid : Z)
| Error_history_forbidden (cid : Z)
| Error_history_failed (cid : Z) (e : exn)
| Error_no_guild (cid : Z)
| Error_no_bot_user
| Error_members_forbidden (gid : Z)
| Error_members_failed (gid : Z) (e : exn)
| Info_eligible_count (cid : Z) (n : nat)
| Warning_dm_forbidden (m : Member) (e : exn)
| Warning_dm_http (m : Member) (e : exn)
| Warning_dm_other (m : Member) (e : exn).

Inductive event : Type :=
| Logged (r : log_record)
| Printed (names : list (string * Z))
| ChannelSend (cid : Z) (text : string) (res : outcome unit)
| MemberSend (m : Member) (text : string) (res : outcome unit).

(** How a block of statements ends: it falls through with a value, it
    executes [return], or an exception leaves it. *)
Inductive completion (A : Type) : Type :=
| Normal (a : A)
| Returned
| Raised (e : exn).
Arguments Normal {A} a.
Arguments Returned {A}.
Arguments Raised {A} e.

(** A block: the events it produced, in order, and how it ended. *)
Definition prog (A : Type) : Type := list event * completion A.

#[export] Instance prog_ret : MRet prog := fun A a => ([], Normal a).

#[export] Instance prog_bind : MBind prog := fun A B f c =>
  match c with
  | (t, Normal a) => let '(t', r) := f a in (t ++ t', r)
  | (t, Returned) => (t, Returned)
  | (t, Raised e) => (t, Raised e)
  end.

Definition emit (ev : event) : prog unit := ([ev], Normal tt).
Definition return_ {A} : prog A := ([], Returned).
Definition raise {A} (e : exn) : prog A := ([], Raised e).

(** A call that produces no event of its own. *)
Definition call {A} (o : outcome A) : prog A :=
  match o with
  | Ok a => mret a
  | Raise e => raise e
  end.

(** A call recorded, with its result, as an event. *)
Definition attempt (ev : outcome unit -> event) (o : outcome unit)
  : prog unit :=
  emit (ev o) ;; call o.

(** [try: body except ...]: [handler e] is the clause that matches [e],
    if there is one. *)
Definition try_except {A} (body : prog A) (handler : exn -> option (prog A))
  : prog A :=
  match body with
  | (t, Raised e) =>
      match handler e with
      | Some (t', r) => (t ++ t', r)
      | None => (t, Raised e)
      end
  | done => done
  end.

(** The result of calling a function whose body is the block. *)
Definition run_function (c : prog unit) : list event * outcome unit :=
  match c with
  | (t, Normal _) | (t, Returned) => (t, Ok tt)
  | (t, Raised e) => (t, Raise e)
  end.

End Run.

(** ** The check *)

Module Bot.
Import Calendar Discord Run.

Definition CONFIRMATION_TEXT : string :=
  "✅ 오늘(어제 18시~자정) 주간보고 미제출자는 없습니다!".

Definition SUMMARY_HEADER : string :=
  "⏰ 아직 주간보고를 작성하지 않은 분들입니다!".

Definition DM_TEXT : string :=
  "오늘 18:00~24:00 사이 주간보고가 확인되지 않았습니다. 잊지 말고 작성해주세요!".

(** [" ".join(parts)] *)
Fixpoint join_spaces (parts : list string) : string :=
  match parts with
  | [] => ""
  | [p] => p
  | p :: rest => p +:+ " " +:+ join_spaces rest
  end.

Definition newline : string := String (Ascii.ascii_of_nat 10) "".

(** The window the check uses: the caller's when both bounds are given,
    today's otherwise. *)
Definition choose_window (now : datetime)
    (custom_start custom_end : option datetime)
  : outcome (datetime * datetime) :=
  match custom_start, custom_end with
  | Some s, Some e => Ok (s, e)
  | _, _ => _today_range now
  end.

(** The set [{message.author.id for message in msgs}]. *)
Definition author_ids (msgs : list Message) : gset Z :=
  foldl (fun acc m => acc ∪ {[ author_id m ]}) ∅ msgs.

(** [{message.author.id async for message in channel.history(...)}] *)
Definition collect_reporters (channel : Channel) (start end_ : datetime)
  : prog (gset Z) :=
  match ch_history_error channel with
  | Some e => raise e
  | None => mret (author_ids (history (ch_messages channel) start end_))
  end.

Definition _can_read (member : Member) : prog bool :=
  try_except (call (read_messages member))
    (fun e => match e with
              | AttributeError => Some (mret false)
              | _ => None
              end).

(** The [async for member in channel.guild.fetch_members(limit=None)] loop;
    [acc] is [eligible_members] so far. *)
Fixpoint collect_eligible (members : list Member) (err : option exn)
    (acc : list Member) : prog (list Member) :=
  match members with
  | [] =>
      match err with
      | Some e => raise e
      | None => mret acc
      end
  | member :: rest =>
      if negb (bot member) then
        readable ← _can_read member;
        if (readable : bool) then collect_eligible rest err (acc ++ [member])
        else collect_eligible rest err acc
      else collect_eligible rest err acc
  end.

(** [[m for m in eligible_members if m.id in TARGET_MEMBER_IDS]] *)
Fixpoint only_targets (targets : gset Z) (eligible_members : list Member)
  : list Member :=
  match eligible_members with
  | [] => []
  | m :: rest =>
      if decide (m_id m ∈ targets) then m :: only_targets targets rest
      else only_targets targets rest
  end.

(** [if TARGET_MEMBER_IDS: eligible_members = [...]] *)
Definition restrict_to_targets (targets : gset Z)
    (eligible_members : list Member) : list Member :=
  if decide (targets = ∅) then eligible_members
  else only_targets targets eligible_members.

(** [[m for m in eligible_members if m.id not in reporters]] *)
Fixpoint non_reporters (eligible_members : list Member) (reporters : gset Z)
  : list Member :=
  match eligible_members with
  | [] => []
  | m :: rest =>
      if decide (m_id m ∈ reporters) then non_reporters rest reporters
      else m :: non_reporters rest reporters
  end.

Definition channel_send (channel : Channel) (text : string) : prog unit :=
  attempt (ChannelSend (ch_id channel) text) (ch_send channel text).

(** One round of the [for member in non_reporters] loop. *)
Definition dm_member (member : Member) : prog unit :=
  try_except (attempt (MemberSend member DM_TEXT) (send_result member))
    (fun exc =>
       Some (emit (Logged (match exc with
                           | Forbidden => Warning_dm_forbidden member exc
                           | NotFound | HTTPException =>
                               Warning_dm_http member exc
                           | _ => Warning_dm_other member exc
                           end)))).

Fixpoint dm_loop (members : list Member) : prog unit :=
  match members with
  | [] => mret tt
  | member :: rest => dm_member member ;; dm_loop rest
  end.

(** Lines 202 to 227: what is sent once the non-reporters are known. *)
Definition notify (channel : Channel) (absentees : list Member)
  : prog unit :=
  match absentees with
  | [] => channel_send channel CONFIRMATION_TEXT ;; return_
  | _ =>
      let mention_list := join_spaces (map mention absentees) in
      channel_send channel (SUMMARY_HEADER +:+ newline +:+ mention_list) ;;
      dm_loop absentees
  end.

Definition check_reports_body (w : World)
    (custom_start custom_end : option datetime) : prog unit :=
  '(start, end_) ← call (choose_window (now w) custom_start custom_end);
  channel ← try_except (call (fetch_channel w))
    (fun e => match e with
       | NotFound =>
           Some (emit (Logged (Error_channel_not_found (REPORT_CHANNEL_ID w)))
                 ;; return_)
       | Forbidden =>
           Some (emit (Logged (Error_channel_forbidden (REPORT_CHANNEL_ID w)))
                 ;; return_)
       | HTTPException =>
           Some (emit (Logged (Error_channel_fetch (REPORT_CHANNEL_ID w) e))
                 ;; return_)
       | _ => None
       end);
  emit (Logged (Info_checking start end_ (REPORT_CHANNEL_ID w))) ;;
  reporters ← try_except (collect_reporters channel start end_)
    (fun e => match e with
       | Forbidden =>
           Some (emit (Logged (Error_history_forbidden (REPORT_CHANNEL_ID w)))
                 ;; return_)
       | NotFound | HTTPException =>
           Some (emit (Logged (Error_history_failed (REPORT_CHANNEL_ID w) e))
                 ;; return_)
       | _ => None
       end);
  match guild channel with
  | None => emit (Logged (Error_no_guild (REPORT_CHANNEL_ID w))) ;; return_
  | Some g =>
      if negb (bot_user_available w) then
        emit (Logged Error_no_bot_user) ;; return_
      else
        fetched ← try_except
          (collect_eligible (g_members g) (g_members_error g) [])
          (fun e => match e with
             | Forbidden =>
                 Some (emit (Logged (Error_members_forbidden (g_id g)))
                       ;; return_)
             | NotFound | HTTPException =>
                 Some (emit (Logged (Error_members_failed (g_id g) e))
                       ;; return_)
             | _ => None
             end);
        let eligible_members :=
          restrict_to_targets (TARGET_MEMBER_IDS w) fetched in
        emit (Logged (Info_eligible_count (ch_id channel)
                        (length eligible_members))) ;;
        emit (Printed (map (fun m => (display_name m, m_id m))
                           eligible_members)) ;;
        notify channel (non_reporters eligible_members reporters)
  end.

Definition check_reports (w : World)
    (custom_start custom_end : option datetime)
  : list event * outcome unit :=
  run_function (check_reports_body w custom_start custom_end).

End Bot.

(** ** Reading a trace *)

Module Trace.
Import Calendar Discord Run Bot.

(** The texts passed to [channel.send], in order. *)
Fixpoint channel_sends (t : list event) : list string :=
  match t with
  | [] => []
  | ChannelSend _ text _ :: rest => text :: channel_sends rest
  | _ :: rest => channel_sends rest
  end.

(** The members whose [send] was called, in order. *)
Fixpoint dm_attempts (t : list event) : list Member :=
  match t with
  | [] => []
  | MemberSend m _ _ :: rest => m :: dm_attempts rest
  | _ :: rest => dm_attempts rest
  end.

(** The members a "Could not DM" warning was logged for, in order. *)
Fixpoint dm_warnings (t : list event) : list Member :=
  match t with
  | [] => []
  | Logged (Warning_dm_forbidden m _) :: rest
  | Logged (Warning_dm_http m _) :: rest
  | Logged (Warning_dm_other m _) :: rest => m :: dm_warnings rest
  | _ :: rest => dm_warnings rest
  end.

Definition send_fails (m : Member) : bool :=
  match send_result m with
  | Ok _ => false
  | Raise _ => true
  end.

(** The text of the public reminder for [absentees]. *)
Definition summary_text (absentees : list Member) : string :=
  SUMMARY_HEADER +:+ newline +:+ join_spaces (map mention absentees).

(** What a run that reaches the notification phase has logged and printed
    before it. *)
Definition preamble (w : World) (channel : Channel) (start end_ : datetime)
    (eligible : list Member) : list event :=
  [Logged (Info_checking start end_ (REPORT_CHANNEL_ID w));
   Logged (Info_eligible_count (ch_id channel) (length eligible));
   Printed (map (fun m => (display_name m, m_id m)) eligible)].

(** A member the roster loop keeps: not a bot, and able to read the
    channel. *)
Definition visible (m : Member) : Prop :=
  bot m = false /\ read_messages m = Ok true.

(** [sub] occurs in [text]. *)
Definition contains (text sub : string) : Prop :=
  exists pre post, text = pre +:+ sub +:+ post.

(** The specification's absentee list: the eligible members that did not
    report, in the order of the eligible list, none left out. *)
Definition is_absentee_list (eligible : list Member) (reporters : gset Z)
    (absentees : list Member) : Prop :=
  absentees `sublist_of` eligible /\
  Forall (fun m => m_id m ∉ reporters) absentees /\
  (forall l, l `sublist_of` eligible ->
             Forall (fun m => m_id m ∉ reporters) l ->
             l `sublist_of` absentees).

(** A call of the API that the run depends on fails with [e]. *)
Definition api_failure (w : World) (e : exn) : Prop :=
  fetch_channel w = Raise e \/
  exists channel, fetch_channel w = Ok channel /\
    (ch_history_error channel = Some e \/
     exists g, guild channel = Some g /\ g_members_error g = Some e).

End Trace.

(** ** Concrete inputs *)

Module Scenario.
Import Calendar Discord Run Bot Trace.

(** The daily check of 1 March 2024, at 00:05 KST. *)
Definition just_after_midnight : datetime :=
  mk_datetime 2024 3 1 0 5 0 0 KST.

Definition window_start : datetime := mk_datetime 2024 2 29 18 0 0 0 KST.
Definition window_end : datetime := mk_datetime 2024 2 29 23 59 59 0 KST.

Definition alice : Member :=
  mk_member 1 false "alice" "<@1>" (Ok true) (Ok tt).

(** [bob] has closed his direct messages. *)
Definition bob : Member :=
  mk_member 2 false "bob" "<@2>" (Ok true) (Raise Forbidden).

Definition carol : Member :=
  mk_member 3 false "carol" "<@3>" (Ok true) (Ok tt).

(** A member whose permissions cannot be resolved. *)
Definition stale : Member :=
  mk_member 4 false "stale" "<@4>" (Raise AttributeError) (Ok tt).

Definition robot : Member :=
  mk_member 9 true "robot" "<@9>" (Ok true) (Ok tt).

Definition open_channel (g : option Guild) (msgs : list Message) : Channel :=
  mk_channel 100 g msgs None (fun _ => Ok tt).

(** A channel the bot may read but not write to. *)
Definition read_only_channel : Channel :=
  mk_channel 100 None [] None (fun _ => Raise Forbidden).

Definition forbidden_world : World :=
  mk_world just_after_midnight 100 ∅ (Raise Forbidden) true.

(** Messages posted at 18:00:00.000, at 21:30:00.000 and at 23:59:59.000
    of 29 February 2024. *)
Definition at_start : Message :=
  mk_message (time_snowflake window_start false + 12345) 1.
Definition in_between : Message :=
  mk_message
    (time_snowflake (mk_datetime 2024 2 29 21 30 0 0 KST) false + 77) 2.
Definition at_end : Message :=
  mk_message (time_snowflake window_end false + 67890) 3.

Definition report_guild : Guild :=
  mk_guild 7 [alice; bob; carol] None.

Definition boundary_world : World :=
  mk_world just_after_midnight 100 ∅
    (Ok (open_channel (Some report_guild) [at_start; in_between; at_end]))
    true.

End Scenario.

(** ** What a run is measured against *)

Module RunFacts.
Import Calendar Discord Run Bot Trace.

(** A member reported: the channel holds a message of theirs created
    strictly inside the window. *)
Definition reported (channel : Channel) (start end_ : datetime) (m : Member)
  : Prop :=
  exists msg, msg ∈ ch_messages channel /\ author_id msg = m_id m /\
    timestamp_ms start < snowflake_time (msg_id msg) < timestamp_ms end_.

(** Bounds without microseconds, as those of [_today_range] are: for
    these [time_snowflake] is the exact millisecond. *)
Definition whole_seconds (start end_ : datetime) : Prop :=
  microsecond start = 0 /\ microsecond end_ = 0.

(** A member passes the allow-list: there is none, or it names them. *)
Definition allowed (targets : gset Z) (m : Member) : Prop :=
  targets = ∅ \/ m_id m ∈ targets.

(** The permission check of a member is not reached (a bot) or ends in a
    value or in the [AttributeError] that [_can_read] catches. *)
Definition check_settles (m : Member) : Prop :=
  bot m = true \/ read_messages m = Raise AttributeError \/
  exists b, read_messages m = Ok b.

(** The run's channel, history and member list can all be fetched, the
    channel belongs to a guild and [bot.user] is set. *)
Definition fetches_succeed (w : World) (channel : Channel) (g : Guild)
  : Prop :=
  fetch_channel w = Ok channel /\ ch_history_error channel = None /\
  guild channel = Some g /\ bot_user_available w = true /\
  g_members_error g = None.

(** The text of the one public message for [absentees]. *)
Definition public_text (absentees : list Member) : string :=
  match absentees with
  | [] => CONFIRMATION_TEXT
  | _ => summary_text absentees
  end.

End RunFacts.

(** ** The allow-list of the configuration

    Lines 48 to 52, for a value of the environment variable made of ASCII
    characters whose fields are short enough for [int] (at most
    [MAX_STR_DIGITS] characters; longer digit strings raise [ValueError]
    in current versions of Python). *)

Module Config.

Definition MAX_STR_DIGITS : nat := 4300.

Definition code (c : Ascii.ascii) : Z := Z.of_nat (Ascii.nat_of_ascii c).

(** [c.isspace()] for an ASCII character: tab to carriage return, the four
    separators 28 to 31, and the space. *)
Definition isspace (c : Ascii.ascii) : bool :=
  ((9 <=? code c) && (code c <=? 13)) || ((28 <=? code c) && (code c <=? 32)).

(** ["0" <= c <= "9"] *)
Definition is_digit (c : Ascii.ascii) : bool :=
  (48 <=? code c) && (code c <=? 57).

Definition comma : Ascii.ascii := Ascii.ascii_of_nat 44.

(** [s.split(sep)] for a one-character separator. *)
Fixpoint split (sep : Ascii.ascii) (s : string) : list string :=
  match s with
  | EmptyString => [EmptyString]
  | String c rest =>
      if Ascii.eqb c sep then EmptyString :: split sep rest
      else match split sep rest with
           | field :: fields => String c field :: fields
           | [] => [String c EmptyString]
           end
  end.

Fixpoint lstrip (s : string) : string :=
  match s with
  | EmptyString => EmptyString
  | String c rest => if isspace c then lstrip rest else s
  end.

Fixpoint rstrip (s : string) : string :=
  match s with
  | EmptyString => EmptyString
  | String c rest =>
      match rstrip rest with
      | EmptyString => if isspace c then EmptyString else String c EmptyString
      | kept => String c kept
      end
  end.

(** [s.strip()] *)
Definition strip (s : string) : string := rstrip (lstrip s).

(** Every character of [s] satisfies [p]. *)
Fixpoint string_forall (p : Ascii.ascii -> bool) (s : string) : bool :=
  match s with
  | EmptyString => true
  | String c rest => p c && string_forall p rest
  end.

(** [s.isdigit()]: at least one character, and all of them digits. *)
Definition isdigit (s : string) : bool :=
  match s with
  | EmptyString => false
  | _ => string_forall is_digit s
  end.

Fixpoint int_from (acc : Z) (s : string) : Z :=
  match s with
  | EmptyString => acc
  | String c rest => int_from (10 * acc + (code c - 48)) rest
  end.

(** [int(s)] for a string of digits. *)
Definition int (s : string) : Z := int_from 0 s.

(** The set comprehension of lines 48 to 52 over the fields. *)
Fixpoint ids_of_fields (fields : list string) : gset Z :=
  match fields with
  | [] => ∅
  | uid :: rest =>
      if isdigit (strip uid) then {[ int (strip uid) ]} ∪ ids_of_fields rest
      else ids_of_fields rest
  end.

(** [TARGET_MEMBER_IDS] for the value [os.getenv("TARGET_MEMBER_IDS")]. *)
Definition parse_target_member_ids (env : option string) : gset Z :=
  ids_of_fields (split comma (default EmptyString env)).

(** The values the model speaks for. *)
Definition in_model (value : string) : Prop :=
  string_forall (fun c => code c <? 128) value = true /\
  Forall (fun uid => (String.length (strip uid) <= MAX_STR_DIGITS)%nat)
         (split comma value).

(** [str(n)] for a natural number. *)
Definition str (n : N) : string :=
  DecimalString.NilEmpty.string_of_uint (N.to_uint n).

(** [",".join(fields)] *)
Fixpoint join_commas (fields : list string) : string :=
  match fields with
  | [] => EmptyString
  | [f] => f
  | f :: rest => f +:+ String comma (join_commas rest)
  end.

Definition not_comma (c : Ascii.ascii) : bool := negb (Ascii.eqb c comma).
Definition not_space (c : Ascii.ascii) : bool := negb (isspace c).

(** A field as one may write it: the decimal digits of [n] between two
    runs of white space. *)
Definition padded (left : string) (n : N) (right : string) : string :=
  left +:+ str n +:+ right.

(** A written field: white space, a natural number, white space. *)
Definition field_ok (f : string * N * string) : Prop :=
  string_forall isspace f.1.1 = true /\ string_forall isspace f.2 = true.

Definition field_text (f : string * N * string) : string :=
  padded f.1.1 f.1.2 f.2.

Definition field_id (f : string * N * string) : Z := Z.of_N f.1.2.

End Config.

(** ** The entry points: the daily loop, the command, the one-shot mode
    and [on_ready] *)

Module Entry.
Import Calendar Discord Run Bot Trace.

(** The body of [check_reports_loop]: the window is computed first and
    handed to [check_reports]. *)
Definition check_reports_loop (w : World) : list event * outcome unit :=
  match _today_range (now w) with
  | Raise e => ([], Raise e)
  | Ok (start, end_) => check_reports w (Some start) (Some end_)
  end.

(** The [check] command: its body runs when the invoker holds the
    administrator permission; otherwise the permission check of the
    decorator fails and the body is not run. *)
Definition check (invoker_is_administrator : bool) (w : World)
  : option (list event * outcome unit) :=
  if invoker_is_administrator then Some (check_reports w None None)
  else None.

(** The command line of [main]. *)
Record Args : Type := mk_args {
  args_once : bool;
  args_window_start : option string;
  args_window_end : option string
}.

(** How [main] ends in one-shot mode: with the [ValueError] of
    [datetime.fromisoformat], before the bot connects, or with the one
    check run. *)
Inductive one_shot_result : Type :=
| ValueError_at_startup
| Checked (run : list event * outcome unit).

Section OneShot.
(** [datetime.fromisoformat]; [None] stands for its [ValueError]. *)
Variable fromisoformat : string -> option datetime.

(** [if args.window_start: custom_start = datetime.fromisoformat(...)]:
    an absent or empty argument leaves the bound [None]. *)
Definition custom_bound (arg : option string)
  : option (option datetime) :=
  match arg with
  | None => Some None
  | Some text =>
      if String.eqb text EmptyString then Some None
      else match fromisoformat text with
           | Some t => Some (Some t)
           | None => None
           end
  end.

(** Lines 257 to 277, once the bot is ready. *)
Definition one_shot (args : Args) (w : World) : one_shot_result :=
  match custom_bound (args_window_start args) with
  | None => ValueError_at_startup
  | Some custom_start =>
      match custom_bound (args_window_end args) with
      | None => ValueError_at_startup
      | Some custom_end => Checked (check_reports w custom_start custom_end)
      end
  end.

(** [main]: without [--once] the bot runs until stopped and the window
    arguments are not looked at. *)
Definition main (args : Args) (w : World) : option one_shot_result :=
  if args_once args then Some (one_shot args w) else None.

End OneShot.

(** An argument that is present and not empty. *)
Definition given (arg : option string) (text : string) : Prop :=
  arg = Some text /\ text <> EmptyString.

(** The task of [check_reports_loop]: never started, alive, or done. *)
Inductive task : Type := NoTask | Alive | Done.

Record loop_state : Type := mk_loop {
  loop_task : task;
  launches : nat
}.

(** [check_reports_loop.is_running()] *)
Definition is_running (s : loop_state) : bool :=
  match loop_task s with
  | Alive => true
  | _ => false
  end.

(** [check_reports_loop.start()]: [None] stands for the [RuntimeError] it
    raises when the task is launched and not completed. *)
Definition start (s : loop_state) : option loop_state :=
  match loop_task s with
  | Alive => None
  | _ => Some {| loop_task := Alive; launches := S (launches s) |}
  end.

(** [on_ready] *)
Definition on_ready (s : loop_state) : option loop_state :=
  if negb (is_running s) then start s else Some s.

(** What happens to the bot: it becomes ready (at login and after each
    reconnection), or the task of the loop ends. *)
Inductive bot_event : Type := Ready | TaskEnds.

#[export] Instance bot_event_eq_dec : EqDecision bot_event.
Proof. solve_decision. Defined.

Definition step (s : loop_state) (ev : bot_event) : option loop_state :=
  match ev with
  | Ready => on_ready s
  | TaskEnds =>
      Some (match loop_task s with
            | Alive => {| loop_task := Done; launches := launches s |}
            | _ => s
            end)
  end.

Fixpoint steps (s : loop_state) (evs : list bot_event)
  : option loop_state :=
  match evs with
  | [] => Some s
  | ev :: rest =>
      match step s ev with
      | Some s' => steps s' rest
      | None => None
      end
  end.

Definition initial : loop_state := {| loop_task := NoTask; launches := 0 |}.

Fixpoint count_ends (evs : list bot_event) : nat :=
  match evs with
  | [] => 0
  | TaskEnds :: rest => S (count_ends rest)
  | Ready :: rest => count_ends rest
  end.

(** What the events so far allow: [ended] tasks have ended, and [ready]
    tells whether the bot has been ready at all. *)
Definition loop_ok (s : loop_state) (ended : nat) (ready : bool) : Prop :=
  match loop_task s with
  | NoTask => launches s = 0%nat /\ ready = false
  | Alive => (1 <= launches s <= S ended)%nat
  | Done => (1 <= launches s <= ended)%nat
  end.

End Entry.

(** ** More concrete inputs *)

Module Scenario2.
Import Calendar Discord Run Bot Trace Scenario RunFacts Config Entry.

(** A morning check, at 10:00 KST of 1 March 2024. *)
Definition mid_morning : datetime := mk_datetime 2024 3 1 10 0 0 0 KST.

(** The channel of [report_guild], where the bot may not write. *)
Definition muted_channel : Channel :=
  mk_channel 100 (Some report_guild) [in_between] None
    (fun _ => Raise Forbidden).

Definition muted_world : World :=
  mk_world just_after_midnight 100 ∅ (Ok muted_channel) true.

(** A member whose permission check fails with a Discord error. *)
Definition broken : Member :=
  mk_member 5 false "broken" "<@5>" (Raise Forbidden) (Ok tt).

Definition broken_guild : Guild :=
  mk_guild 8 [alice; broken; carol] None.

Definition broken_world : World :=
  mk_world just_after_midnight 100 ∅
    (Ok (open_channel (Some broken_guild) [])) true.

(** Two ids as one may write them in the environment. *)
Definition written_fields : list (string * N * string) :=
  [(" ", 1%N, ""); ("", 3%N, " ")].

(** [--once --window-start 2024-02-29T18:00:00+09:00] *)
Definition start_only : Args :=
  mk_args true (Some "2024-02-29T18:00:00+09:00") None.

(** A parser that knows one text. *)
Definition parse_one (text : string) : option datetime :=
  if String.eqb text "2024-02-29T18:00:00+09:00" then Some window_start
  else None.

End Scenario2.

(** * Properties *)

Import Calendar Discord Run Bot Trace Scenario.

(** ** Blocks compose as a monad *)

Section Effects.
Context {A B C : Type}.

Lemma prog_left_id (a : A) (f : A -> prog B) : (mret a ≫= f) = f a.
Proof. unfold mbind, prog_bind, mret, prog_ret. by destruct (f a). Qed.

Lemma prog_right_id (c : prog A) : (c ≫= mret) = c.
Proof.
  destruct c as [t [a | | e]]; unfold mbind, prog_bind, mret, prog_ret;
    by rewrite ?app_nil_r.
Qed.

Lemma prog_assoc (c : prog A) (f : A -> prog B) (g : B -> prog C) :
  ((c ≫= f) ≫= g) = (c ≫= fun a => f a ≫= g).
Proof.
  destruct c as [t [a | | e]]; unfold mbind, prog_bind; [| done | done].
  destruct (f a) as [t1 [b | | e1]]; [| done | done].
  destruct (g b) as [t2 r]. by rewrite app_assoc.
Qed.

End Effects.

Lemma run_function_trace (c : prog unit) : fst (run_function c) = fst c.
Proof. by destruct c as [t [[] | | e]]. Qed.

(** ** The window calculator *)

Section Window.

Lemma leap_step y :
  _days_before_year (y + 1)
  = _days_before_year y + 365 + (if _is_leap y then 1 else 0).
Proof.
  unfold _days_before_year, _is_leap.
  replace (y + 1 - 1) with y by lia.
  destruct (Z.eqb_spec (y mod 4) 0), (Z.eqb_spec (y mod 100) 0),
    (Z.eqb_spec (y mod 400) 0);
    cbn [negb andb orb]; Z.to_euclidean_division_equations; lia.
Qed.

Ltac month_cases m :=
  let Hc := fresh "Hc" in
  assert (m = 1 \/ m = 2 \/ m = 3 \/ m = 4 \/ m = 5 \/ m = 6 \/ m = 7 \/
          m = 8 \/ m = 9 \/ m = 10 \/ m = 11 \/ m = 12) as Hc by lia;
  repeat (destruct Hc as [-> | Hc]); [.. | subst m].

Lemma month_step y m :
  2 <= m <= 12 ->
  _days_before_month y m
  = _days_before_month y (m - 1) + _days_in_month y (m - 1).
Proof.
  intros Hm. unfold _days_before_month, _days_in_month.
  month_cases m; try lia; destruct (_is_leap y); reflexivity.
Qed.

Lemma days_in_month_bounds y m :
  1 <= m <= 12 -> 28 <= _days_in_month y m <= 31.
Proof.
  intros Hm. unfold _days_in_month.
  month_cases m; destruct (_is_leap y); cbn; lia.
Qed.

(** [prev_day] is the day whose ordinal is one less. *)
Lemma prev_day_ordinal y m d :
  valid_date y m d -> 1 < _ymd2ord y m d ->
  let '(y', m', d') := prev_day y m d in
  valid_date y' m' d' /\ _ymd2ord y' m' d' = _ymd2ord y m d - 1.
Proof.
  intros (Hy & Hm & Hd) Hord. unfold prev_day, MINYEAR, MAXYEAR in *.
  destruct (Z.ltb_spec 1 d) as [Hd1 | Hd1].
  - split; [unfold valid_date, MINYEAR, MAXYEAR; lia | unfold _ymd2ord; lia].
  - assert (d = 1) as -> by lia.
    destruct (Z.ltb_spec 1 m) as [Hm1 | Hm1].
    + pose proof (days_in_month_bounds y (m - 1) ltac:(lia)).
      split; [unfold valid_date, MINYEAR, MAXYEAR; lia |].
      unfold _ymd2ord. rewrite (month_step y m) by lia. lia.
    + assert (m = 1) as -> by lia.
      assert (y <> 1) by (intros ->; vm_compute in Hord; discriminate).
      split.
      { unfold valid_date, MINYEAR, MAXYEAR.
        change (_days_in_month (y - 1) 12) with 31. lia. }
      unfold _ymd2ord. pose proof (leap_step (y - 1)) as Hs.
      replace (y - 1 + 1) with y in Hs by lia.
      change (_days_before_month (y - 1) 12)
        with (334 + (if _is_leap (y - 1) then 1 else 0)).
      change (_days_before_month y 1) with 0.
      destruct (_is_leap (y - 1)); lia.
Qed.

Lemma days_before_year_mono y1 y2 :
  y1 <= y2 -> _days_before_year y1 <= _days_before_year y2.
Proof.
  unfold _days_before_year. intros H. cbv zeta.
  Z.to_euclidean_division_equations. lia.
Qed.

Lemma day_of_year_bounds y m d :
  valid_date y m d ->
  1 <= _days_before_month y m + d <= 365 + (if _is_leap y then 1 else 0).
Proof.
  intros (_ & Hm & Hd). revert Hd. unfold _days_before_month, _days_in_month.
  month_cases m; destruct (_is_leap y); cbn; lia.
Qed.

Lemma day_of_year_mono y m1 d1 m2 d2 :
  valid_date y m1 d1 -> valid_date y m2 d2 -> m1 < m2 ->
  _days_before_month y m1 + d1 < _days_before_month y m2 + d2.
Proof.
  intros (_ & Hm1 & Hd1) (_ & Hm2 & Hd2) Hlt.
  revert Hd1 Hd2. unfold _days_before_month, _days_in_month.
  destruct (_is_leap y); month_cases m1; month_cases m2; try lia; cbn; lia.
Qed.

(** A valid date is determined by its ordinal, so "the day whose ordinal is
    one less" names one calendar day. *)
Lemma ymd2ord_inj y1 m1 d1 y2 m2 d2 :
  valid_date y1 m1 d1 -> valid_date y2 m2 d2 ->
  _ymd2ord y1 m1 d1 = _ymd2ord y2 m2 d2 -> (y1, m1, d1) = (y2, m2, d2).
Proof.
  intros V1 V2. unfold _ymd2ord. intros Heq.
  pose proof (day_of_year_bounds _ _ _ V1) as B1.
  pose proof (day_of_year_bounds _ _ _ V2) as B2.
  assert (y1 = y2) as ->.
  { destruct (Z.lt_trichotomy y1 y2) as [Hlt | [? | Hlt]]; [| done |].
    - pose proof (leap_step y1).
      pose proof (days_before_year_mono (y1 + 1) y2 ltac:(lia)). lia.
    - pose proof (leap_step y2).
      pose proof (days_before_year_mono (y2 + 1) y1 ltac:(lia)). lia. }
  assert (m1 = m2) as ->.
  { destruct (Z.lt_trichotomy m1 m2) as [Hlt | [? | Hlt]]; [| done |].
    - pose proof (day_of_year_mono _ _ _ _ _ V1 V2 Hlt). lia.
    - pose proof (day_of_year_mono _ _ _ _ _ V2 V1 Hlt). lia. }
  f_equal. lia.
Qed.

Example prev_day_leap : prev_day 2024 3 1 = (2024, 2, 29).
Proof. reflexivity. Qed.

Example prev_day_new_year : prev_day 2025 1 1 = (2024, 12, 31).
Proof. reflexivity. Qed.

Lemma sub_one_day_raises t e : sub_one_day t = Raise e -> e = OverflowError.
Proof.
  unfold sub_one_day. destruct (toordinal t <=? 1); [congruence |].
  by destruct (prev_day (year t) (month t) (day t)) as [[y m] d].
Qed.

Lemma choose_window_raises now cs ce e :
  choose_window now cs ce = Raise e -> e = OverflowError.
Proof.
  assert (_today_range now = Raise e -> e = OverflowError) as Htoday.
  { unfold _today_range. destruct (hour now <? 6); [| discriminate].
    destruct (sub_one_day (replace now 18 0 0 0)) eqn:Hs.
    - destruct (sub_one_day (replace now 23 59 59 0)) eqn:He;
        [discriminate |].
      intros [= <-]. eauto using sub_one_day_raises.
    - intros [= <-]. eauto using sub_one_day_raises. }
  destruct cs, ce; cbn; auto. discriminate.
Qed.

(** C2: for every reading of the clock, [_today_range] returns the window
    18:00:00 to 23:59:59 of the current calendar day when the local hour is
    at least 6, and of the previous calendar day (the valid date whose
    ordinal is one less) when the local hour is below 6; at hour 6 exactly
    it is today's window.  The first representable day, 0001-01-01, has no
    previous day and is left out of the second part. *)
Theorem today_range_anchor (now : datetime) :
  valid_datetime now ->
  (6 <= hour now ->
   exists w, _today_range now = Ok w /\
     anchored_on (year now) (month now) (day now) (utcoffset now) w) /\
  (hour now < 6 -> 1 < toordinal now ->
   exists w y m d, _today_range now = Ok w /\
     anchored_on y m d (utcoffset now) w /\
     valid_date y m d /\ _ymd2ord y m d = toordinal now - 1) /\
  (hour now = 6 ->
   _today_range now = Ok (replace now 18 0 0 0, replace now 23 59 59 0)).
Proof.
  intros (Hdate & Hh & _). unfold _today_range. repeat split.
  - intros H6. destruct (Z.ltb_spec (hour now) 6) as [? | _]; [lia |].
    eexists. split; [reflexivity |]. cbn. auto 10.
  - intros H6 Hord. destruct (Z.ltb_spec (hour now) 6) as [_ | ?]; [| lia].
    unfold sub_one_day.
    change (toordinal (replace now 18 0 0 0)) with (toordinal now).
    change (toordinal (replace now 23 59 59 0)) with (toordinal now).
    destruct (Z.leb_spec (toordinal now) 1) as [? | _]; [lia |].
    pose proof (prev_day_ordinal _ _ _ Hdate Hord) as Hp. cbn.
    destruct (prev_day (year now) (month now) (day now)) as [[y m] d].
    destruct Hp as [Hv Ho].
    eexists _, y, m, d. split; [reflexivity |]. cbn. auto 10.
  - intros H6. rewrite H6. reflexivity.
Qed.

Lemma today_range_anchor_witness :
  valid_datetime just_after_midnight /\
  exists w y m d, _today_range just_after_midnight = Ok w /\
     anchored_on y m d KST w /\
     valid_date y m d /\ _ymd2ord y m d = toordinal just_after_midnight - 1.
Proof.
  assert (valid_datetime just_after_midnight) as Hv.
  { repeat split; vm_compute; easy. }
  split; [exact Hv |].
  apply (today_range_anchor just_after_midnight Hv); reflexivity.
Defined.

End Window.

(** ** The float arithmetic of [time_snowflake] *)

Section Floats.

Lemma round_half_even_exact v d :
  0 < d -> Binary64.round_half_even (v * d) d = v.
Proof.
  intros Hd. unfold Binary64.round_half_even.
  rewrite Z.div_mul, Z.mod_mul by lia.
  destruct (Z.ltb_spec (2 * 0) d); [done | lia].
Qed.

Lemma round_pos_integer v d :
  0 < d -> 0 < v < 2 ^ 53 ->
  Binary64.is_integer (Binary64.round_pos (v * d) d) v.
Proof.
  intros Hd Hv. unfold Binary64.round_pos, Binary64.binade.
  destruct (Z.leb_spec d (v * d)) as [_ | ?]; [| nia].
  rewrite Z.div_mul by lia.
  assert (Z.log2 v < 53) as Hlog by (apply Z.log2_lt_pow2; lia).
  pose proof (Z.log2_nonneg v).
  destruct (Z.leb_spec 0 (52 - Z.log2 v)) as [Hk | ?]; [| lia].
  replace (v * d * 2 ^ (52 - Z.log2 v))
    with (v * 2 ^ (52 - Z.log2 v) * d) by lia.
  rewrite round_half_even_exact by done.
  split; cbn [fst snd]; [| done].
  by apply Z.pow_pos_nonneg.
Qed.

(** Rounding leaves an integer below [2^53] as it is. *)
Lemma round_integer n d v :
  0 < d -> n = v * d -> - 2 ^ 53 < v < 2 ^ 53 ->
  Binary64.is_integer (Binary64.round n d) v.
Proof.
  intros Hd -> Hv. unfold Binary64.round.
  destruct (Z.eqb_spec (v * d) 0) as [H0 | Hne].
  - assert (v = 0) as -> by nia. by split.
  - destruct (Z.ltb_spec 0 (v * d)) as [Hpos | Hneg].
    + apply round_pos_integer; [done | nia].
    + replace (- (v * d)) with (- v * d) by lia.
      destruct (round_pos_integer (- v) d Hd) as [Hb Ha]; [nia |].
      destruct (Binary64.round_pos (- v * d) d) as [a b].
      cbn [fst snd] in *. split; cbn [fst snd]; [done | lia].
Qed.

Lemma mul_int_integer x v c :
  Binary64.is_integer x v -> - 2 ^ 53 < v * c < 2 ^ 53 ->
  Binary64.is_integer (Binary64.mul_int x c) (v * c).
Proof.
  intros [Hb Ha] Hv. apply round_integer; [done | rewrite Ha; lia | done].
Qed.

Lemma sub_int_integer x v c :
  Binary64.is_integer x v -> - 2 ^ 53 < v - c < 2 ^ 53 ->
  Binary64.is_integer (Binary64.sub_int x c) (v - c).
Proof.
  intros [Hb Ha] Hv. apply round_integer; [done | rewrite Ha; lia | done].
Qed.

Lemma trunc_integer x v : Binary64.is_integer x v -> Binary64.trunc x = v.
Proof.
  intros [Hb Ha]. unfold Binary64.trunc. rewrite Ha.
  apply Z.quot_mul. lia.
Qed.

Lemma ymd2ord_bounds y m d :
  valid_date y m d -> 1 <= _ymd2ord y m d <= 3652060.
Proof.
  intros Hv. pose proof (day_of_year_bounds _ _ _ Hv) as Hd.
  destruct Hv as ([Hy1 Hy2] & _). unfold MINYEAR, MAXYEAR in *.
  pose proof (days_before_year_mono 1 y Hy1) as Hlo.
  pose proof (days_before_year_mono y 9999 Hy2) as Hhi.
  change (_days_before_year 1) with 0 in Hlo.
  change (_days_before_year 9999) with 3651694 in Hhi.
  unfold _ymd2ord. destruct (_is_leap y); lia.
Qed.

(** The float computation of [time_snowflake] is exact for a datetime
    without microseconds. *)
Lemma float_millis_whole t :
  valid_datetime t -> - 86400 < utcoffset t < 86400 -> microsecond t = 0 ->
  float_millis t = timestamp_ms t - DISCORD_EPOCH.
Proof.
  intros (Hd & Hh & Hmi & Hs & _) Hoff Hus.
  pose proof (ymd2ord_bounds _ _ _ Hd) as Hord. fold (toordinal t) in Hord.
  unfold float_millis, timestamp, timestamp_ms, total_microseconds.
  rewrite Hus, Z.add_0_r. change (0 / 1000) with 0. rewrite Z.add_0_r.
  set (sec := (toordinal t - 719163) * 86400 + hour t * 3600
              + minute t * 60 + second t - utcoffset t).
  assert (- 62135683200 <= sec <= 253402473599) as Hsec by (subst sec; lia).
  change (2 ^ 53) with 9007199254740992 in *.
  apply trunc_integer.
  apply sub_int_integer;
    [| unfold DISCORD_EPOCH; change (2 ^ 53) with 9007199254740992; lia].
  apply mul_int_integer; [| change (2 ^ 53) with 9007199254740992; lia].
  apply round_integer;
    [done | done | change (2 ^ 53) with 9007199254740992; lia].
Qed.

(** So [discord_millis] is the float computation for every datetime that
    Python can build. *)
Lemma discord_millis_float t :
  valid_datetime t -> - 86400 < utcoffset t < 86400 ->
  discord_millis t = float_millis t.
Proof.
  intros Hv Hoff. unfold discord_millis.
  destruct (Z.eqb_spec (microsecond t) 0) as [Hus | _]; [| done].
  by rewrite float_millis_whole.
Qed.

(** With microseconds the float computation can fall a millisecond short
    of the exact one. *)
Example float_millis_rounds :
  float_millis (mk_datetime 2038 1 19 17 43 31 2000 KST) = 727433011001 /\
  timestamp_ms (mk_datetime 2038 1 19 17 43 31 2000 KST) - DISCORD_EPOCH
  = 727433011002.
Proof. by vm_compute. Qed.

End Floats.


(** ** The message history of the window *)

Section History.

Lemma discord_millis_whole t :
  microsecond t = 0 -> discord_millis t = timestamp_ms t - DISCORD_EPOCH.
Proof. unfold discord_millis. by intros ->. Qed.

Lemma after_snowflake_strict after id :
  microsecond after = 0 ->
  time_snowflake after true < id <-> timestamp_ms after < snowflake_time id.
Proof.
  intros Hw. unfold time_snowflake, snowflake_time.
  rewrite (discord_millis_whole _ Hw).
  rewrite Z.shiftl_mul_pow2, Z.shiftr_div_pow2 by lia.
  change (2 ^ 22) with 4194304. Z.to_euclidean_division_equations. lia.
Qed.

Lemma before_snowflake_strict before id :
  microsecond before = 0 ->
  id < time_snowflake before false <-> snowflake_time id < timestamp_ms before.
Proof.
  intros Hw. unfold time_snowflake, snowflake_time.
  rewrite (discord_millis_whole _ Hw).
  rewrite Z.shiftl_mul_pow2, Z.shiftr_div_pow2 by lia.
  change (2 ^ 22) with 4194304. Z.to_euclidean_division_equations. lia.
Qed.

(** For bounds without microseconds the history holds the messages created
    strictly after the millisecond of [after] and strictly before the
    millisecond of [before]. *)
Lemma history_elem msgs after before m :
  microsecond after = 0 -> microsecond before = 0 ->
  m ∈ history msgs after before <->
  m ∈ msgs /\
  timestamp_ms after < snowflake_time (msg_id m) < timestamp_ms before.
Proof.
  intros Hwa Hwb. induction msgs as [| x rest IH]; cbn.
  - rewrite elem_of_nil. tauto.
  - pose proof (after_snowflake_strict after (msg_id x) Hwa) as Ha.
    pose proof (before_snowflake_strict before (msg_id x) Hwb) as Hb.
    destruct (Z.ltb_spec (time_snowflake after true) (msg_id x));
      destruct (Z.ltb_spec (msg_id x) (time_snowflake before false));
      cbn [andb]; rewrite ?elem_of_cons, IH;
      intuition (subst; auto; lia).
Qed.

(** A message created in the millisecond of either bound is not read. *)
Lemma boundary_message_excluded (msgs : list Message)
    (start end_ : datetime) (m : Message) :
  microsecond start = 0 -> microsecond end_ = 0 ->
  snowflake_time (msg_id m) = timestamp_ms start \/
  snowflake_time (msg_id m) = timestamp_ms end_ ->
  m ∉ history msgs start end_.
Proof. intros Hs He Hb [_ Hin]%history_elem; [lia | done ..]. Qed.

Lemma author_ids_snoc msgs m :
  author_ids (msgs ++ [m]) = author_ids msgs ∪ {[ author_id m ]}.
Proof. unfold author_ids. by rewrite foldl_app. Qed.

(** [author_ids] is the set of the authors of the messages. *)
Lemma author_ids_elem msgs id :
  id ∈ author_ids msgs <-> exists m, m ∈ msgs /\ author_id m = id.
Proof.
  induction msgs as [| x rest IH] using rev_ind.
  - unfold author_ids. cbn. rewrite elem_of_empty. split; [done |].
    intros (m & Hm & _). by apply elem_of_nil in Hm.
  - rewrite author_ids_snoc, elem_of_union, elem_of_singleton, IH.
    split.
    + intros [(m & Hm & <-) | ->].
      * exists m. split; [| done]. apply elem_of_app. by left.
      * exists x. split; [| done]. apply elem_of_app. right. by left.
    + intros (m & [Hm | Hm%list_elem_of_singleton]%elem_of_app & <-).
      * left. by exists m.
      * right. by subst.
Qed.

(** C3: the run of 1 March 2024, 00:05 KST.  The window is 29 February,
    18:00:00 to 23:59:59; alice posted at 18:00:00.000 and carol at
    23:59:59.000, bob at 21:30.  Only bob's message is read, and alice and
    carol are reminded in the channel and by direct message. *)
Theorem boundary_reports_missed :
  _today_range (now boundary_world) = Ok (window_start, window_end) /\
  snowflake_time (msg_id at_start) = timestamp_ms window_start /\
  snowflake_time (msg_id at_end) = timestamp_ms window_end /\
  history [at_start; in_between; at_end] window_start window_end
  = [in_between] /\
  dm_attempts (fst (check_reports boundary_world None None))
  = [alice; carol] /\
  channel_sends (fst (check_reports boundary_world None None))
  = [summary_text [alice; carol]].
Proof. by vm_compute. Qed.

End History.

(** ** The attendance differ *)

Section Differ.
Variable reporters : gset Z.

Lemma non_reporters_cons_in m rest :
  m_id m ∈ reporters ->
  non_reporters (m :: rest) reporters = non_reporters rest reporters.
Proof. intros H. cbn. destruct (decide (m_id m ∈ reporters)); done. Qed.

Lemma non_reporters_cons_out m rest :
  m_id m ∉ reporters ->
  non_reporters (m :: rest) reporters = m :: non_reporters rest reporters.
Proof. intros H. cbn. destruct (decide (m_id m ∈ reporters)); done. Qed.

Lemma non_reporters_sublist eligible :
  non_reporters eligible reporters `sublist_of` eligible.
Proof.
  induction eligible as [| m rest IH]; [constructor |].
  destruct (decide (m_id m ∈ reporters)) as [Hin | Hout].
  - rewrite non_reporters_cons_in by done. by constructor.
  - rewrite non_reporters_cons_out by done. by constructor.
Qed.

Lemma non_reporters_elem eligible m :
  m ∈ non_reporters eligible reporters <-> m ∈ eligible /\ m_id m ∉ reporters.
Proof.
  induction eligible as [| x rest IH].
  - cbn. rewrite elem_of_nil. tauto.
  - destruct (decide (m_id x ∈ reporters)) as [Hin | Hout].
    + rewrite non_reporters_cons_in by done. rewrite IH, elem_of_cons.
      intuition (subst; auto; congruence).
    + rewrite non_reporters_cons_out by done.
      rewrite !elem_of_cons, IH. intuition (subst; auto).
Qed.

Lemma non_reporters_maximal eligible l :
  l `sublist_of` eligible ->
  Forall (fun m => m_id m ∉ reporters) l ->
  l `sublist_of` non_reporters eligible reporters.
Proof.
  induction 1 as [| x l1 l2 Hsub IH | x l1 l2 Hsub IH]; intros Hall.
  - constructor.
  - apply Forall_cons in Hall as [Hx Hall].
    rewrite non_reporters_cons_out by done. constructor. auto.
  - destruct (decide (m_id x ∈ reporters)) as [Hin | Hout].
    + rewrite non_reporters_cons_in by done. auto.
    + rewrite non_reporters_cons_out by done. constructor. auto.
Qed.

(** The specification determines the absentee list. *)
Lemma absentee_list_unique eligible l1 l2 :
  is_absentee_list eligible reporters l1 ->
  is_absentee_list eligible reporters l2 -> l1 = l2.
Proof.
  intros (S1 & F1 & M1) (S2 & F2 & M2).
  apply (anti_symm sublist); auto.
Qed.

End Differ.

(** C1: for every eligible list and reporter set, [non_reporters] is the
    absentee list of the specification: a sublist of the eligible list (same
    relative order), made of members whose identifier is not a reporter's,
    and containing every such sublist; its members are exactly the eligible
    members whose identifier is not in the reporter set. *)
Theorem non_reporters_exact (eligible : list Member) (reporters : gset Z) :
  is_absentee_list eligible reporters (non_reporters eligible reporters) /\
  (forall m, m ∈ non_reporters eligible reporters
             <-> m ∈ eligible /\ m_id m ∉ reporters).
Proof.
  split; [| apply non_reporters_elem].
  split; [apply non_reporters_sublist |].
  split; [| intros l; apply non_reporters_maximal].
  apply Forall_forall. intros m Hm. by apply non_reporters_elem in Hm as [_ ?].
Qed.

(** C8: with the reporter set of an empty history, which is the empty set,
    every eligible member is an absentee, in order; and with no eligible
    member there is no absentee, whatever the reporter set. *)
Theorem non_reporters_degenerate :
  (forall eligible : list Member,
     non_reporters eligible (author_ids []) = eligible) /\
  (forall eligible : list Member, non_reporters eligible ∅ = eligible) /\
  (forall reporters : gset Z, non_reporters [] reporters = []).
Proof.
  assert (forall eligible : list Member, non_reporters eligible ∅ = eligible)
    as Hall.
  { induction eligible as [| m rest IH]; [reflexivity |].
    rewrite non_reporters_cons_out by apply not_elem_of_empty.
    by rewrite IH. }
  split; [exact Hall |]. split; [exact Hall | reflexivity].
Qed.

(** ** The roster resolver *)

Section Roster.
Variable targets : gset Z.

Lemma only_targets_elem eligible m :
  m ∈ only_targets targets eligible <-> m ∈ eligible /\ m_id m ∈ targets.
Proof.
  induction eligible as [| x rest IH]; cbn.
  - rewrite elem_of_nil. tauto.
  - destruct (decide (m_id x ∈ targets)) as [Hin | Hout].
    + rewrite !elem_of_cons, IH. intuition (subst; auto).
    + rewrite elem_of_cons, IH. intuition (subst; auto; congruence).
Qed.

Lemma only_targets_sublist eligible :
  only_targets targets eligible `sublist_of` eligible.
Proof.
  induction eligible as [| x rest IH]; cbn; [constructor |].
  destruct (decide (m_id x ∈ targets)); by constructor.
Qed.

End Roster.

Lemma _can_read_true member :
  read_messages member = Ok true -> _can_read member = ([], Normal true).
Proof. unfold _can_read. by intros ->. Qed.

Lemma _can_read_other member :
  read_messages member <> Ok true ->
  _can_read member = ([], Normal false) \/
  exists e, _can_read member = ([], Raised e).
Proof.
  unfold _can_read. destruct (read_messages member) as [[|] | e]; cbn.
  - done.
  - by left.
  - intros _. destruct e; cbn; eauto.
Qed.

Ltac kept_is k :=
  split; [done |]; split; [done |]; exists k.

(** When the member loop completes it has logged nothing, the enumeration
    did not fail, and it has appended the visible members, in order. *)
Lemma collect_eligible_normal members err acc t l :
  collect_eligible members err acc = (t, Normal l) ->
  t = [] /\ err = None /\
  exists kept, l = acc ++ kept /\ kept `sublist_of` members /\
    forall m, m ∈ kept <-> m ∈ members /\ visible m.
Proof.
  revert acc. induction members as [| x rest IH]; intros acc; cbn.
  - destruct err; cbn; [discriminate |]. intros [= <- <-].
    kept_is ([] : list Member).
    rewrite app_nil_r. split; [done |]. split; [constructor |].
    intros m. rewrite elem_of_nil. tauto.
  - destruct (bot x) eqn:Hbot; cbn.
    + intros H. destruct (IH _ H) as (-> & -> & kept & -> & Hsub & Hk).
      kept_is kept. split; [done |]. split; [by constructor |].
      intros m. rewrite elem_of_cons, Hk. unfold visible.
      intuition (subst; auto; congruence).
    + assert (read_messages x = Ok true \/ read_messages x <> Ok true)
        as [Hr | Hr] by (destruct (read_messages x) as [[|] |]; auto).
      * rewrite (_can_read_true _ Hr). cbn.
        destruct (collect_eligible rest err (acc ++ [x])) as [t' r] eqn:Hc.
        intros [= <- ->].
        destruct (IH _ Hc) as (-> & -> & kept & -> & Hsub & Hk).
        kept_is (x :: kept).
        rewrite <- app_assoc. split; [done |]. split; [by constructor |].
        intros m. rewrite !elem_of_cons, Hk. unfold visible.
        intuition (subst; auto; congruence).
      * destruct (_can_read_other _ Hr) as [-> | [e ->]]; cbn;
          [| discriminate].
        destruct (collect_eligible rest err acc) as [t' r] eqn:Hc.
        intros [= <- ->].
        destruct (IH _ Hc) as (-> & -> & kept & -> & Hsub & Hk).
        kept_is kept. split; [done |]. split; [by constructor |].
        intros m. rewrite elem_of_cons, Hk. unfold visible.
        intuition (subst; auto; congruence).
Qed.

Lemma collect_eligible_silent members err acc :
  fst (collect_eligible members err acc) = [].
Proof.
  revert acc. induction members as [| x rest IH]; intros acc; cbn.
  - by destruct err.
  - destruct (bot x); cbn; [apply IH |].
    unfold _can_read. destruct (read_messages x) as [[|] | e]; cbn.
    + specialize (IH (acc ++ [x])).
      by destruct (collect_eligible rest err (acc ++ [x])).
    + specialize (IH acc). by destruct (collect_eligible rest err acc).
    + destruct e; cbn; try done.
      specialize (IH acc). by destruct (collect_eligible rest err acc).
Qed.

Lemma collect_eligible_not_returned members err acc t :
  collect_eligible members err acc <> (t, Returned).
Proof.
  revert acc. induction members as [| x rest IH]; intros acc; cbn.
  - by destruct err.
  - destruct (bot x); cbn; [apply IH |].
    unfold _can_read. destruct (read_messages x) as [[|] | e]; cbn.
    + specialize (IH (acc ++ [x])).
      destruct (collect_eligible rest err (acc ++ [x])). congruence.
    + specialize (IH acc). destruct (collect_eligible rest err acc).
      congruence.
    + destruct e; cbn; try done.
      specialize (IH acc). destruct (collect_eligible rest err acc).
      congruence.
Qed.

(** When the enumeration fails the loop ends with an exception. *)
Lemma collect_eligible_fails members e acc :
  exists e', collect_eligible members (Some e) acc = ([], Raised e').
Proof.
  revert acc. induction members as [| x rest IH]; intros acc; cbn.
  - by exists e.
  - destruct (bot x); cbn; [apply IH |].
    unfold _can_read. destruct (read_messages x) as [[|] | e1]; cbn.
    + destruct (IH (acc ++ [x])) as [e' ->]. by exists e'.
    + destruct (IH acc) as [e' ->]. by exists e'.
    + destruct e1; cbn; eauto.
      destruct (IH acc) as [e' ->]. by exists e'.
Qed.

(** C7: when the member loop completes with [fetched], these are the
    members that are no bots and can read the channel; with a non-empty
    allow-list the eligible list holds exactly the fetched members whose
    identifier is in the allow-list, with an empty allow-list it is
    [fetched] unchanged; in both cases the order of the enumeration is
    kept. *)
Theorem allow_list_restriction (members : list Member) (err : option exn)
    (targets : gset Z) (t : list event) (fetched : list Member) :
  collect_eligible members err [] = (t, Normal fetched) ->
  restrict_to_targets targets fetched `sublist_of` members /\
  (targets <> ∅ ->
   forall m, m ∈ restrict_to_targets targets fetched
             <-> m ∈ fetched /\ m_id m ∈ targets) /\
  (targets = ∅ -> restrict_to_targets targets fetched = fetched) /\
  (forall m, m ∈ fetched <-> m ∈ members /\ visible m).
Proof.
  intros Hc.
  destruct (collect_eligible_normal _ _ _ _ _ Hc)
    as (_ & _ & kept & -> & Hsub & Hk).
  cbn [app]. unfold restrict_to_targets.
  split; [| split; [| split]].
  - destruct (decide (targets = ∅)); [done |].
    etrans; [apply only_targets_sublist | done].
  - intros Hne m. destruct (decide (targets = ∅)); [done |].
    apply only_targets_elem.
  - intros ->. by destruct (decide (∅ = ∅)).
  - exact Hk.
Qed.

Lemma allow_list_restriction_witness :
  collect_eligible [alice; robot; bob; stale; carol] None []
  = ([], Normal [alice; bob; carol]) /\
  restrict_to_targets {[1; 3]} [alice; bob; carol]
    `sublist_of` [alice; robot; bob; stale; carol] /\
  ({[1; 3]} <> (∅ : gset Z) ->
   forall m, m ∈ restrict_to_targets {[1; 3]} [alice; bob; carol]
             <-> m ∈ [alice; bob; carol] /\ m_id m ∈ ({[1; 3]} : gset Z)) /\
  (({[1; 3]} : gset Z) = ∅ ->
   restrict_to_targets {[1; 3]} [alice; bob; carol] = [alice; bob; carol]) /\
  (forall m, m ∈ [alice; bob; carol]
             <-> m ∈ [alice; robot; bob; stale; carol] /\ visible m).
Proof.
  split; [reflexivity |].
  apply (allow_list_restriction [alice; robot; bob; stale; carol] None
           {[1; 3]} [] [alice; bob; carol]).
  reflexivity.
Defined.

(** The scenario of the specification: eligible A, B, C and allow-list
    A, C. *)
Example allow_list_scenario :
  restrict_to_targets {[1; 3]} [alice; bob; carol] = [alice; carol].
Proof. by vm_compute. Qed.

(** C9: a member whose permission check raises [AttributeError] is read as
    unable to read the channel: [_can_read] returns [False] without
    raising, the member loop behaves as if the member were not enumerated,
    and the member is in no eligible list. *)
Theorem unreadable_member_excluded (member : Member) :
  read_messages member = Raise AttributeError ->
  _can_read member = ([], Normal false) /\
  (forall before after err acc,
     collect_eligible (before ++ member :: after) err acc
     = collect_eligible (before ++ after) err acc) /\
  (forall members err t eligible,
     collect_eligible members err [] = (t, Normal eligible) ->
     member ∉ eligible).
Proof.
  intros Hattr.
  assert (_can_read member = ([], Normal false)) as Hcr.
  { unfold _can_read. by rewrite Hattr. }
  split; [exact Hcr |]. split.
  - induction before as [| x before IH]; intros after err acc; cbn.
    + rewrite Hcr. destruct (bot member); cbn; [done |].
      by destruct (collect_eligible after err acc).
    + destruct (bot x); cbn; [apply IH |].
      destruct (_can_read x) as [t [[|] | | e]]; cbn; by rewrite ?IH.
  - intros members err t eligible Hc.
    destruct (collect_eligible_normal _ _ _ _ _ Hc)
      as (_ & _ & kept & -> & _ & Hk).
    cbn. intros [_ [_ Hv]]%Hk. congruence.
Qed.

Lemma unreadable_member_excluded_witness :
  _can_read stale = ([], Normal false) /\
  (forall before after err acc,
     collect_eligible (before ++ stale :: after) err acc
     = collect_eligible (before ++ after) err acc) /\
  (forall members err t eligible,
     collect_eligible members err [] = (t, Normal eligible) ->
     stale ∉ eligible).
Proof. apply (unreadable_member_excluded stale). reflexivity. Defined.

(** ** The notifier *)

Section Notifier.

Lemma append_nil_l (b : string) : "" +:+ b = b.
Proof. reflexivity. Qed.

Lemma append_cons x (a b : string) : String x a +:+ b = String x (a +:+ b).
Proof. reflexivity. Qed.

Lemma append_assoc (a b c : string) : (a +:+ b) +:+ c = a +:+ b +:+ c.
Proof.
  induction a as [| x a IH]; [done |]. by rewrite !append_cons, IH.
Qed.

Lemma append_nil_r (a : string) : a +:+ "" = a.
Proof.
  induction a as [| x a IH]; [done |]. by rewrite append_cons, IH.
Qed.

Lemma contains_prefixed pre text sub :
  contains text sub -> contains (pre +:+ text) sub.
Proof.
  intros (p & q & ->). exists (pre +:+ p), q. by rewrite append_assoc.
Qed.

Lemma join_spaces_cons p q rest :
  join_spaces (p :: q :: rest) = p +:+ " " +:+ join_spaces (q :: rest).
Proof. reflexivity. Qed.

Lemma join_spaces_contains (parts : list string) (p : string) :
  p ∈ parts -> contains (join_spaces parts) p.
Proof.
  induction parts as [| x [| y rest] IH]; intros Hin.
  - by apply elem_of_nil in Hin.
  - apply list_elem_of_singleton in Hin as ->. exists "", "".
    by rewrite append_nil_l, append_nil_r.
  - rewrite join_spaces_cons. apply elem_of_cons in Hin as [-> | Hin].
    + by exists "", (" " +:+ join_spaces (y :: rest)).
    + apply contains_prefixed, contains_prefixed. auto.
Qed.

(** The public reminder mentions every absentee. *)
Lemma summary_text_mentions absentees m :
  m ∈ absentees -> contains (summary_text absentees) (mention m).
Proof.
  intros Hin. unfold summary_text.
  apply contains_prefixed, contains_prefixed, join_spaces_contains.
  apply list_elem_of_fmap. eauto.
Qed.

Lemma channel_sends_app t1 t2 :
  channel_sends (t1 ++ t2) = channel_sends t1 ++ channel_sends t2.
Proof.
  induction t1 as [| ev t1 IH]; [done |]. destruct ev; cbn; by rewrite ?IH.
Qed.

Lemma dm_attempts_app t1 t2 :
  dm_attempts (t1 ++ t2) = dm_attempts t1 ++ dm_attempts t2.
Proof.
  induction t1 as [| ev t1 IH]; [done |]. destruct ev; cbn; by rewrite ?IH.
Qed.

Lemma dm_warnings_app t1 t2 :
  dm_warnings (t1 ++ t2) = dm_warnings t1 ++ dm_warnings t2.
Proof.
  induction t1 as [| ev t1 IH]; [done |].
  destruct ev as [[] | | |]; cbn; by rewrite ?IH.
Qed.

(** One round of the loop never raises: a failed send is logged. *)
Lemma dm_member_cases member :
  (send_result member = Ok tt /\
   dm_member member = ([MemberSend member DM_TEXT (Ok tt)], Normal tt)) \/
  (exists e r, send_result member = Raise e /\
     dm_member member =
       ([MemberSend member DM_TEXT (Raise e); Logged r], Normal tt) /\
     dm_warnings [Logged r] = [member]).
Proof.
  unfold dm_member, attempt. destruct (send_result member) as [[] | e]; cbn.
  - by left.
  - right. destruct e; cbn; eauto.
Qed.

Lemma dm_loop_spec absentees :
  exists t, dm_loop absentees = (t, Normal tt) /\
    dm_attempts t = absentees /\
    dm_warnings t = filter send_fails absentees /\
    channel_sends t = [].
Proof.
  induction absentees as [| m rest (t & Hl & Ha & Hw & Hc)].
  - by exists [].
  - cbn [dm_loop]. rewrite Hl. unfold mbind, prog_bind.
    destruct (dm_member_cases m) as [[Hs ->] | (e & r & Hs & -> & Hr)].
    + eexists. split; [reflexivity |].
      rewrite filter_cons_False by (unfold send_fails; rewrite Hs; cbn; tauto).
      cbn. by rewrite Ha, Hw.
    + eexists. split; [reflexivity |].
      rewrite filter_cons_True by (unfold send_fails; rewrite Hs; cbn; tauto).
      change (dm_attempts _) with (m :: dm_attempts t).
      rewrite Ha. split; [done |]. split; [| by destruct r].
      change (dm_warnings _) with (dm_warnings ([Logged r] ++ t)).
      by rewrite dm_warnings_app, Hr, Hw.
Qed.

Lemma notify_nil channel :
  notify channel [] =
  ([ChannelSend (ch_id channel) CONFIRMATION_TEXT
      (ch_send channel CONFIRMATION_TEXT)],
   match ch_send channel CONFIRMATION_TEXT with
   | Ok _ => Returned
   | Raise e => Raised e
   end).
Proof.
  unfold notify, channel_send, attempt.
  destruct (ch_send channel CONFIRMATION_TEXT); reflexivity.
Qed.

Lemma notify_cons channel m rest :
  notify channel (m :: rest) =
  let text := summary_text (m :: rest) in
  match ch_send channel text with
  | Ok _ =>
      (ChannelSend (ch_id channel) text (ch_send channel text)
         :: fst (dm_loop (m :: rest)), Normal tt)
  | Raise e =>
      ([ChannelSend (ch_id channel) text (ch_send channel text)], Raised e)
  end.
Proof.
  destruct (dm_loop_spec (m :: rest)) as (t & Hl & _).
  unfold notify, channel_send, attempt. fold (summary_text (m :: rest)).
  rewrite Hl. cbn [fst].
  destruct (ch_send channel (summary_text (m :: rest))); reflexivity.
Qed.

(** C4, amended: with no absentee the notifier makes exactly one channel
    send, of the confirmation, and attempts no direct message.  With
    absentees its first event is the one channel send, of a text that
    mentions every absentee; when that send succeeds it is followed by
    exactly one direct-message attempt per absentee, in order, and when it
    raises nothing follows and the exception leaves the notifier. *)
Theorem notify_messages (channel : Channel) (absentees : list Member) :
  let t := fst (notify channel absentees) in
  (absentees = [] ->
   channel_sends t = [CONFIRMATION_TEXT] /\ dm_attempts t = []) /\
  (absentees <> [] ->
   exists text res rest,
     t = ChannelSend (ch_id channel) text res :: rest /\
     channel_sends rest = [] /\
     (forall m, m ∈ absentees -> contains text (mention m)) /\
     (res = Ok tt -> dm_attempts rest = absentees) /\
     (forall e, res = Raise e ->
        rest = [] /\ snd (notify channel absentees) = Raised e)).
Proof.
  split.
  - intros ->. by rewrite notify_nil.
  - intros Hne. destruct absentees as [| m rest]; [done |].
    rewrite notify_cons. cbv zeta.
    destruct (dm_loop_spec (m :: rest)) as (t & Hl & Ha & _ & Hc).
    rewrite Hl. cbn [fst].
    exists (summary_text (m :: rest)).
    destruct (ch_send channel (summary_text (m :: rest))) as [[] | e] eqn:Hs.
    + exists (Ok tt), t. cbn [fst snd].
      split; [done |]. split; [done |].
      split; [apply summary_text_mentions |]. split; [done |]. discriminate.
    + exists (Raise e), []. cbn [fst snd].
      split; [done |]. split; [done |].
      split; [apply summary_text_mentions |]. split; [discriminate |].
      by intros ? [= <-].
Qed.

Lemma notify_messages_witness :
  [alice; bob] <> [] /\
  exists text res rest,
     fst (notify (open_channel None []) [alice; bob])
     = ChannelSend 100 text res :: rest /\
     channel_sends rest = [] /\
     (forall m, m ∈ [alice; bob] -> contains text (mention m)) /\
     (res = Ok tt -> dm_attempts rest = [alice; bob]) /\
     (forall e, res = Raise e ->
        rest = [] /\
        snd (notify (open_channel None []) [alice; bob]) = Raised e).
Proof.
  split; [discriminate |].
  apply (notify_messages (open_channel None []) [alice; bob]). discriminate.
Defined.

(** C4 as stated: with the one absentee alice and a channel whose [send]
    raises [Forbidden], the public send is made and no direct message is
    attempted. *)
Lemma notify_public_send_raises :
  notify read_only_channel [alice]
  = ([ChannelSend 100 (summary_text [alice]) (Raise Forbidden)],
     Raised Forbidden) /\
  ~ (forall (channel : Channel) (absentees : list Member),
       absentees <> [] ->
       dm_attempts (fst (notify channel absentees)) = absentees).
Proof.
  split; [reflexivity |].
  intros H. specialize (H read_only_channel [alice]).
  rewrite notify_cons in H. cbn in H. by specialize (H ltac:(done)).
Qed.

(** C5: whatever the absentees and whichever of their direct messages
    fail, the loop attempts every absentee in order, logs a warning for
    exactly those whose send raised, and ends normally; the notifier makes
    exactly one channel send; and when that send succeeded, the attempts
    and the warnings of the notifier are those of the loop. *)
Theorem dm_failures_isolated (channel : Channel) (absentees : list Member) :
  (exists t, dm_loop absentees = (t, Normal tt) /\
     dm_attempts t = absentees /\
     dm_warnings t = filter send_fails absentees) /\
  length (channel_sends (fst (notify channel absentees))) = 1%nat /\
  (forall text, channel_sends (fst (notify channel absentees)) = [text] ->
     ch_send channel text = Ok tt ->
     dm_attempts (fst (notify channel absentees)) = absentees /\
     dm_warnings (fst (notify channel absentees))
     = filter send_fails absentees).
Proof.
  destruct (dm_loop_spec absentees) as (t & Hl & Ha & Hw & Hc).
  split; [by exists t |].
  destruct absentees as [| m rest].
  - rewrite notify_nil. cbn. auto.
  - rewrite notify_cons. cbv zeta. rewrite Hl. cbn [fst].
    destruct (ch_send channel (summary_text (m :: rest))) as [[] | e] eqn:Hs;
      cbn [fst channel_sends dm_attempts dm_warnings]; rewrite ?Hc.
    + split; [done |]. intros text [= <-] _. by rewrite Ha, Hw.
    + split; [done |]. intros text [= <-]. rewrite Hs. discriminate.
Qed.

Lemma dm_failures_isolated_witness :
  exists text,
    channel_sends (fst (notify (open_channel None []) [alice; bob; carol]))
    = [text] /\
    ch_send (open_channel None []) text = Ok tt /\
    dm_attempts (fst (notify (open_channel None []) [alice; bob; carol]))
    = [alice; bob; carol] /\
    dm_warnings (fst (notify (open_channel None []) [alice; bob; carol]))
    = filter send_fails [alice; bob; carol].
Proof.
  eexists. split; [reflexivity |]. split; [reflexivity |].
  exact (proj2 (proj2 (dm_failures_isolated (open_channel None [])
                         [alice; bob; carol])) _ eq_refl eq_refl).
Defined.

(** bob's closed direct messages cost carol nothing. *)
Example dm_failure_scenario :
  fst (dm_loop [alice; bob; carol])
  = [MemberSend alice DM_TEXT (Ok tt);
     MemberSend bob DM_TEXT (Raise Forbidden);
     Logged (Warning_dm_forbidden bob Forbidden);
     MemberSend carol DM_TEXT (Ok tt)].
Proof. reflexivity. Qed.

End Notifier.

(** ** The whole run *)

Section WholeRun.

(** Either a run sends nothing, or the channel, its history and the
    members were all fetched and the run is the preamble followed by the
    notifier on the non-reporters among the eligible members. *)
Lemma check_reports_body_cases w cs ce :
  (channel_sends (fst (check_reports_body w cs ce)) = [] /\
   dm_attempts (fst (check_reports_body w cs ce)) = []) \/
  (exists start end_ channel g fetched,
     choose_window (now w) cs ce = Ok (start, end_) /\
     fetch_channel w = Ok channel /\
     ch_history_error channel = None /\
     guild channel = Some g /\
     bot_user_available w = true /\
     collect_eligible (g_members g) (g_members_error g) []
     = ([], Normal fetched) /\
     let eligible := restrict_to_targets (TARGET_MEMBER_IDS w) fetched in
     let absentees :=
       non_reporters eligible
         (author_ids (history (ch_messages channel) start end_)) in
     check_reports_body w cs ce
     = (preamble w channel start end_ eligible
          ++ fst (notify channel absentees),
        snd (notify channel absentees))).
Proof.
  unfold check_reports_body.
  destruct (choose_window (now w) cs ce) as [[start end_] | e0];
    [| left; split; reflexivity].
  destruct (fetch_channel w) as [channel | e1] eqn:Hfetch;
    [| destruct e1; left; split; reflexivity].
  cbn. unfold collect_reporters.
  destruct (ch_history_error channel) as [e2 |] eqn:Hhist;
    [destruct e2; left; split; reflexivity |].
  cbn.
  destruct (guild channel) as [g |] eqn:Hguild; [| left; split; reflexivity].
  destruct (bot_user_available w) eqn:Hbot; [| left; split; reflexivity].
  cbn.
  pose proof (collect_eligible_silent (g_members g) (g_members_error g) [])
    as Hsilent.
  pose proof (collect_eligible_not_returned (g_members g)
                (g_members_error g) []) as Hnr.
  destruct (collect_eligible (g_members g) (g_members_error g) [])
    as [t [fetched | | e3]] eqn:Hcollect; cbn in Hsilent; subst t.
  - right. exists start, end_, channel, g, fetched.
    repeat (split; [done |]). cbn.
    by destruct (notify channel _).
  - by destruct (Hnr []).
  - left. destruct e3; split; reflexivity.
Qed.

(** C6: when fetching the channel, reading its history or enumerating the
    members of its guild fails, the run makes no channel send and attempts
    no direct message; and no [HTTPException], which the permission and
    transport errors are, leaves the run: such a failure is logged and the
    run returns. *)
Theorem api_failure_sends_nothing (w : World) (cs ce : option datetime)
    (e : exn) :
  api_failure w e ->
  channel_sends (fst (check_reports w cs ce)) = [] /\
  dm_attempts (fst (check_reports w cs ce)) = [] /\
  (forall e', snd (check_reports w cs ce) = Raise e' ->
              is_HTTPException e' = false).
Proof.
  intros Hfail. unfold check_reports, check_reports_body.
  destruct (choose_window (now w) cs ce) as [[start end_] | e0] eqn:Hw.
  2: { cbn. repeat split. intros e' [= <-].
       by rewrite (choose_window_raises _ _ _ _ Hw). }
  destruct Hfail as [Hf | (channel & Hf & [Hh | (g & Hg & Hm)])]; rewrite Hf.
  - destruct e; cbn; repeat split; try discriminate; by intros ? [= <-].
  - cbn. unfold collect_reporters. rewrite Hh.
    destruct e; cbn; repeat split; try discriminate; by intros ? [= <-].
  - cbn. unfold collect_reporters.
    destruct (ch_history_error channel) as [e2 |].
    { destruct e2; cbn; repeat split; try discriminate; by intros ? [= <-]. }
    cbn. rewrite Hg. destruct (bot_user_available w); cbn.
    2: { repeat split. discriminate. }
    rewrite Hm.
    destruct (collect_eligible_fails (g_members g) e []) as [e' ->].
    destruct e'; cbn; repeat split; try discriminate; by intros ? [= <-].
Qed.

Lemma api_failure_sends_nothing_witness :
  channel_sends (fst (check_reports forbidden_world None None)) = [] /\
  dm_attempts (fst (check_reports forbidden_world None None)) = [] /\
  (forall e', snd (check_reports forbidden_world None None) = Raise e' ->
              is_HTTPException e' = false).
Proof.
  apply (api_failure_sends_nothing forbidden_world None None Forbidden).
  left. reflexivity.
Defined.

(** The run that cannot fetch its channel logs the error and returns. *)
Example forbidden_run :
  check_reports forbidden_world None None
  = ([Logged (Error_channel_forbidden 100)], Ok tt).
Proof. reflexivity. Qed.

(** The run when the window is [(start, end_)] and every fetch succeeds:
    the preamble, then the notifier on the non-reporters of that window. *)
Lemma check_reports_reaches_notifier w cs ce start end_ channel g fetched :
  choose_window (now w) cs ce = Ok (start, end_) ->
  RunFacts.fetches_succeed w channel g ->
  collect_eligible (g_members g) None [] = ([], Normal fetched) ->
  let eligible := restrict_to_targets (TARGET_MEMBER_IDS w) fetched in
  let absentees :=
    non_reporters eligible
      (author_ids (history (ch_messages channel) start end_)) in
  check_reports w cs ce
  = run_function
      (preamble w channel start end_ eligible
         ++ fst (notify channel absentees),
       snd (notify channel absentees)).
Proof.
  intros Hw (Hf & Hh & Hg & Hb & Hm) Hc. cbv zeta.
  unfold check_reports, check_reports_body. rewrite Hw, Hf. cbn.
  unfold collect_reporters. rewrite Hh. cbn. rewrite Hg, Hb. cbn.
  rewrite Hm, Hc. cbn. by destruct (notify channel _).
Qed.

(** C10: with exactly one custom bound given, [check_reports] discards it
    and works on the window of [_today_range]: if [_today_range] raises,
    the run ends with that exception and no event; otherwise the run logs
    that it checks between the two bounds of [_today_range] as soon as the
    channel is fetched, and when every fetch succeeds it is the preamble
    for that window followed by the notifier on the members without a
    message read between these two bounds.  The window chosen is the one
    of [_today_range], the whole run is the run without arguments, and
    only two bounds given together are used. *)
Theorem partial_custom_window_ignored (w : World) (bound : datetime) :
  choose_window (now w) (Some bound) None = _today_range (now w) /\
  choose_window (now w) None (Some bound) = _today_range (now w) /\
  check_reports w (Some bound) None = check_reports w None None /\
  check_reports w None (Some bound) = check_reports w None None /\
  (forall other, choose_window (now w) (Some bound) (Some other)
                 = Ok (bound, other)) /\
  (forall e, _today_range (now w) = Raise e ->
     check_reports w (Some bound) None = ([], Raise e) /\
     check_reports w None (Some bound) = ([], Raise e)) /\
  (forall start end_ channel,
     _today_range (now w) = Ok (start, end_) ->
     fetch_channel w = Ok channel ->
     exists rest1 rest2,
       fst (check_reports w (Some bound) None)
       = Logged (Info_checking start end_ (REPORT_CHANNEL_ID w)) :: rest1 /\
       fst (check_reports w None (Some bound))
       = Logged (Info_checking start end_ (REPORT_CHANNEL_ID w)) :: rest2) /\
  (forall start end_ channel g fetched,
     _today_range (now w) = Ok (start, end_) ->
     RunFacts.fetches_succeed w channel g ->
     collect_eligible (g_members g) None [] = ([], Normal fetched) ->
     let eligible := restrict_to_targets (TARGET_MEMBER_IDS w) fetched in
     let absentees :=
       non_reporters eligible
         (author_ids (history (ch_messages channel) start end_)) in
     let run :=
       run_function
         (preamble w channel start end_ eligible
            ++ fst (notify channel absentees),
          snd (notify channel absentees)) in
     check_reports w (Some bound) None = run /\
     check_reports w None (Some bound) = run).
Proof.
  repeat (split; [reflexivity |]). split; [| split].
  - intros e He. unfold check_reports, check_reports_body.
    cbn [choose_window]. by rewrite He.
  - intros start end_ channel Hr Hf.
    assert (forall cs ce,
              choose_window (now w) cs ce = Ok (start, end_) ->
              exists rest,
                fst (check_reports w cs ce)
                = Logged (Info_checking start end_ (REPORT_CHANNEL_ID w))
                    :: rest) as Hlog.
    { intros cs ce Hw. unfold check_reports. rewrite run_function_trace.
      unfold check_reports_body. rewrite Hw, Hf. cbn.
      destruct (try_except (collect_reporters channel start end_) _
                ≫= _) as [t r].
      by exists t. }
    destruct (Hlog (Some bound) None Hr) as [rest1 H1].
    destruct (Hlog None (Some bound) Hr) as [rest2 H2].
    by exists rest1, rest2.
  - intros start end_ channel g fetched Hr Hf Hc. cbv zeta.
    split;
      by apply (check_reports_reaches_notifier w _ _ start end_ channel g
                  fetched).
Qed.

Lemma partial_custom_window_ignored_witness :
  exists rest1 rest2,
    fst (check_reports boundary_world (Some just_after_midnight) None)
    = Logged (Info_checking window_start window_end 100) :: rest1 /\
    fst (check_reports boundary_world None (Some just_after_midnight))
    = Logged (Info_checking window_start window_end 100) :: rest2.
Proof.
  destruct (partial_custom_window_ignored boundary_world just_after_midnight)
    as (_ & _ & _ & _ & _ & _ & Hlog & _).
  apply (Hlog window_start window_end
           (open_channel (Some report_guild) [at_start; in_between; at_end]));
    reflexivity.
Defined.

End WholeRun.

(** * Further properties of the run, the window, the entry points and the
    configuration *)

Import RunFacts Config Entry Scenario2.

(** ** The structure of a run *)

Section RunStructure.

(** A run that does not reach the notifier sends nothing and lets no
    [HTTPException] out. *)
Lemma check_reports_body_inv w cs ce :
  (channel_sends (fst (check_reports_body w cs ce)) = [] /\
   dm_attempts (fst (check_reports_body w cs ce)) = [] /\
   forall e, snd (check_reports_body w cs ce) = Raised e ->
             is_HTTPException e = false) \/
  (exists start end_ channel g fetched,
     choose_window (now w) cs ce = Ok (start, end_) /\
     fetches_succeed w channel g /\
     collect_eligible (g_members g) None [] = ([], Normal fetched) /\
     let eligible := restrict_to_targets (TARGET_MEMBER_IDS w) fetched in
     let absentees :=
       non_reporters eligible
         (author_ids (history (ch_messages channel) start end_)) in
     check_reports_body w cs ce
     = (preamble w channel start end_ eligible
          ++ fst (notify channel absentees),
        snd (notify channel absentees))).
Proof.
  unfold check_reports_body.
  destruct (choose_window (now w) cs ce) as [[start end_] | e0] eqn:Hw.
  2: { left. repeat split. cbn. intros e [= <-].
       by rewrite (choose_window_raises _ _ _ _ Hw). }
  destruct (fetch_channel w) as [channel | e1] eqn:Hfetch.
  2: { left. destruct e1; cbn; repeat split; try discriminate;
         by intros ? [= <-]. }
  cbn. unfold collect_reporters.
  destruct (ch_history_error channel) as [e2 |] eqn:Hhist.
  { left. destruct e2; cbn; repeat split; try discriminate;
      by intros ? [= <-]. }
  cbn.
  destruct (guild channel) as [g |] eqn:Hguild.
  2: { left. repeat split. discriminate. }
  destruct (bot_user_available w) eqn:Hbot.
  2: { left. repeat split. discriminate. }
  cbn.
  pose proof (collect_eligible_silent (g_members g) (g_members_error g) [])
    as Hsilent.
  pose proof (collect_eligible_not_returned (g_members g)
                (g_members_error g) []) as Hnr.
  destruct (collect_eligible (g_members g) (g_members_error g) [])
    as [t [fetched | | e3]] eqn:Hcollect; cbn in Hsilent; subst t.
  - right. exists start, end_, channel, g, fetched.
    destruct (collect_eligible_normal _ _ _ _ _ Hcollect) as (_ & Herr & _).
    rewrite Herr in Hcollect.
    split; [done |]. split; [done |]. split; [done |]. cbn.
    by destruct (notify channel _).
  - by destruct (Hnr []).
  - left. destruct e3; cbn; repeat split; try discriminate;
      by intros ? [= <-].
Qed.

End RunStructure.

Section RunResults.

Lemma restrict_to_targets_elem targets l m :
  m ∈ restrict_to_targets targets l <-> m ∈ l /\ allowed targets m.
Proof.
  unfold restrict_to_targets, allowed.
  destruct (decide (targets = ∅)) as [-> | Hne].
  - intuition auto.
  - rewrite only_targets_elem. intuition auto.
Qed.

Lemma restrict_to_targets_sublist targets l :
  restrict_to_targets targets l `sublist_of` l.
Proof.
  unfold restrict_to_targets. destruct (decide (targets = ∅)); [done |].
  apply only_targets_sublist.
Qed.

(** The bounds of [_today_range] carry no microseconds. *)
Lemma today_range_whole_seconds now start end_ :
  _today_range now = Ok (start, end_) -> whole_seconds start end_.
Proof.
  unfold _today_range, sub_one_day.
  change (toordinal (replace now 18 0 0 0)) with (toordinal now).
  change (toordinal (replace now 23 59 59 0)) with (toordinal now).
  destruct (hour now <? 6); [| by intros [= <- <-]].
  destruct (toordinal now <=? 1); [discriminate |]. cbn.
  destruct (prev_day (year now) (month now) (day now)) as [[y m] d].
  by intros [= <- <-].
Qed.

(** So are the bounds of a run that was not given both of them. *)
Lemma default_window_whole_seconds now cs ce start end_ :
  cs = None \/ ce = None ->
  choose_window now cs ce = Ok (start, end_) -> whole_seconds start end_.
Proof.
  intros Hnone Hw. apply (today_range_whole_seconds now).
  destruct Hnone as [-> | ->]; [done |]. by destruct cs.
Qed.

Lemma reporters_elem channel start end_ m :
  whole_seconds start end_ ->
  m_id m ∈ author_ids (history (ch_messages channel) start end_)
  <-> reported channel start end_ m.
Proof.
  intros [Hs He]. rewrite author_ids_elem. unfold reported.
  split; intros (msg & H1 & H2); exists msg.
  - apply history_elem in H1 as [? ?]; auto.
  - destruct H2 as [? ?]. split; [| done]. by apply history_elem.
Qed.

(** The absentees of a run are the enumerated members that are visible,
    pass the allow-list and did not report, in the order of enumeration. *)
Lemma run_absentees members fetched targets channel start end_ :
  whole_seconds start end_ ->
  collect_eligible members None [] = ([], Normal fetched) ->
  let absentees :=
    non_reporters (restrict_to_targets targets fetched)
      (author_ids (history (ch_messages channel) start end_)) in
  absentees `sublist_of` members /\
  forall m, m ∈ absentees <->
            m ∈ members /\ visible m /\ allowed targets m /\
            ~ reported channel start end_ m.
Proof.
  intros Hwhole Hc. cbv zeta.
  destruct (collect_eligible_normal _ _ _ _ _ Hc)
    as (_ & _ & kept & -> & Hsub & Hk).
  cbn [app]. split.
  - etrans; [apply non_reporters_sublist |].
    etrans; [apply restrict_to_targets_sublist | done].
  - intros m. rewrite non_reporters_elem, restrict_to_targets_elem, Hk.
    rewrite reporters_elem by done. tauto.
Qed.

Lemma preamble_silent w channel start end_ eligible :
  channel_sends (preamble w channel start end_ eligible) = [] /\
  dm_attempts (preamble w channel start end_ eligible) = [].
Proof. done. Qed.

(** What the notifier sends, by the result of its one channel send. *)
Lemma notify_shape channel absentees :
  channel_sends (fst (notify channel absentees)) = [public_text absentees] /\
  match ch_send channel (public_text absentees) with
  | Ok _ =>
      dm_attempts (fst (notify channel absentees)) = absentees /\
      run_function (notify channel absentees)
      = (fst (notify channel absentees), Ok tt)
  | Raise e =>
      dm_attempts (fst (notify channel absentees)) = [] /\
      notify channel absentees
      = ([ChannelSend (ch_id channel) (public_text absentees) (Raise e)],
         Raised e)
  end.
Proof.
  destruct absentees as [| m rest].
  - rewrite notify_nil. cbn [public_text fst channel_sends].
    split; [done |]. by destruct (ch_send channel CONFIRMATION_TEXT).
  - rewrite notify_cons. cbv zeta. cbn [public_text].
    destruct (dm_loop_spec (m :: rest)) as (t & Hl & Ha & _ & Hc).
    rewrite Hl. cbn [fst].
    destruct (ch_send channel (summary_text (m :: rest))) as [[] | e];
      cbn [fst channel_sends dm_attempts]; rewrite ?Hc; by rewrite ?Ha.
Qed.

End RunResults.

Section RunTheorems.

Lemma check_reports_trace w cs ce :
  fst (check_reports w cs ce) = fst (check_reports_body w cs ce).
Proof. apply run_function_trace. Qed.

Lemma check_reports_raises w cs ce e :
  snd (check_reports w cs ce) = Raise e <->
  snd (check_reports_body w cs ce) = Raised e.
Proof.
  unfold check_reports.
  destruct (check_reports_body w cs ce) as [t [[] | | e']]; cbn;
    split; congruence.
Qed.

(** X2: in a run whose window bounds carry no microseconds (the default
    window always, a custom window when given in whole seconds), every
    direct message goes to a member of the channel's guild that is no bot,
    can read the channel, passes the allow-list and has no message created
    strictly inside the window; and it is attempted only after the one
    public message was sent successfully. *)
Theorem dm_only_to_absentees (w : World) (cs ce : option datetime)
    (m : Member) :
  (forall start end_, choose_window (now w) cs ce = Ok (start, end_) ->
                      whole_seconds start end_) ->
  m ∈ dm_attempts (fst (check_reports w cs ce)) ->
  exists start end_ channel g,
    choose_window (now w) cs ce = Ok (start, end_) /\
    fetches_succeed w channel g /\
    m ∈ g_members g /\ visible m /\ allowed (TARGET_MEMBER_IDS w) m /\
    ~ reported channel start end_ m /\
    exists text, channel_sends (fst (check_reports w cs ce)) = [text] /\
                 ch_send channel text = Ok tt.
Proof.
  intros Hwhole. rewrite check_reports_trace.
  destruct (check_reports_body_inv w cs ce)
    as [(_ & -> & _) | (start & end_ & channel & g & fetched & Hw & Hf & Hc
                         & Heq)].
  { by intros ?%elem_of_nil. }
  cbv zeta in Heq. rewrite Heq. cbn [fst].
  rewrite dm_attempts_app, channel_sends_app.
  destruct (preamble_silent w channel start end_
              (restrict_to_targets (TARGET_MEMBER_IDS w) fetched))
    as [-> ->]. cbn [app].
  destruct (run_absentees _ _ (TARGET_MEMBER_IDS w) channel start end_
              (Hwhole _ _ Hw) Hc)
    as [_ Habs]. cbv zeta in Habs.
  destruct (notify_shape channel
              (non_reporters
                 (restrict_to_targets (TARGET_MEMBER_IDS w) fetched)
                 (author_ids (history (ch_messages channel) start end_))))
    as [Hs Hd].
  destruct (ch_send channel _) as [[] | e] eqn:Hsend.
  - destruct Hd as [-> _]. intros (? & ? & ? & ?)%Habs.
    exists start, end_, channel, g. repeat (split; [done |]).
    eexists. split; [exact Hs | exact Hsend].
  - destruct Hd as [-> _]. by intros ?%elem_of_nil.
Qed.



(** X4: an [HTTPException] (also [Forbidden] or [NotFound]) leaves a run
    only when the public [channel.send] raised it: that send is then the
    last event of the run and no direct message was attempted. *)
Theorem only_public_send_escapes (w : World) (cs ce : option datetime)
    (e : exn) :
  snd (check_reports w cs ce) = Raise e ->
  is_HTTPException e = true ->
  exists cid text,
    last (fst (check_reports w cs ce)) = Some (ChannelSend cid text (Raise e))
    /\ dm_attempts (fst (check_reports w cs ce)) = [].
Proof.
  rewrite check_reports_raises, check_reports_trace. intros Hr Hhttp.
  destruct (check_reports_body_inv w cs ce)
    as [(_ & _ & Hno) | (start & end_ & channel & g & fetched & Hw & Hf & Hc
                          & Heq)].
  { rewrite (Hno _ Hr) in Hhttp. discriminate. }
  cbv zeta in Heq. rewrite Heq in Hr |- *. cbn [fst snd] in *.
  destruct (notify_shape channel
              (non_reporters
                 (restrict_to_targets (TARGET_MEMBER_IDS w) fetched)
                 (author_ids (history (ch_messages channel) start end_))))
    as [Hs Hd].
  destruct (ch_send channel _) as [[] | e'].
  - destruct Hd as [_ Hrun]. apply (f_equal snd) in Hrun.
    destruct (notify channel _) as [t [[] | | e'']]; cbn in *; congruence.
  - destruct Hd as [Hd Hn]. rewrite Hn in Hr |- *. cbn in Hr.
    injection Hr as ->. eexists _, _. split; [| done].
    cbn [fst]. by rewrite last_snoc.
Qed.

(** X3: a run makes at most one channel send; it makes one only when the
    channel, its history and its members were fetched, the channel belongs
    to a guild and [bot.user] is set; and a run without a channel send
    attempts no direct message. *)
Theorem one_public_message (w : World) (cs ce : option datetime) :
  (length (channel_sends (fst (check_reports w cs ce))) <= 1)%nat /\
  (channel_sends (fst (check_reports w cs ce)) <> [] ->
   exists channel g, fetches_succeed w channel g) /\
  (channel_sends (fst (check_reports w cs ce)) = [] ->
   dm_attempts (fst (check_reports w cs ce)) = []).
Proof.
  rewrite check_reports_trace.
  destruct (check_reports_body_inv w cs ce)
    as [(-> & -> & _) | (start & end_ & channel & g & fetched & Hw & Hf & Hc
                          & Heq)].
  { cbn. split; [lia |]. split; done. }
  cbv zeta in Heq. rewrite Heq. cbn [fst].
  rewrite channel_sends_app.
  destruct (preamble_silent w channel start end_
              (restrict_to_targets (TARGET_MEMBER_IDS w) fetched))
    as [-> _]. cbn [app].
  destruct (notify_shape channel
              (non_reporters
                 (restrict_to_targets (TARGET_MEMBER_IDS w) fetched)
                 (author_ids (history (ch_messages channel) start end_))))
    as [-> _].
  cbn. split; [lia |]. split; [eauto | done].
Qed.

Lemma summary_is_not_confirmation absentees :
  summary_text absentees <> CONFIRMATION_TEXT.
Proof.
  unfold summary_text.
  cbv [SUMMARY_HEADER CONFIRMATION_TEXT String.append]. discriminate.
Qed.

Lemma non_reporters_nil eligible reporters :
  non_reporters eligible reporters = [] <->
  forall m, m ∈ eligible -> m_id m ∈ reporters.
Proof.
  split.
  - intros Hnil m Hin. destruct (decide (m_id m ∈ reporters)); [done |].
    assert (m ∈ non_reporters eligible reporters) as Hm
      by by apply non_reporters_elem.
    rewrite Hnil in Hm. by apply elem_of_nil in Hm.
  - intros Hall. destruct (non_reporters eligible reporters) as [| m l] eqn:E;
      [done |].
    assert (m ∈ non_reporters eligible reporters) as Hm
      by (rewrite E; left).
    apply non_reporters_elem in Hm as [Hin Hout].
    by destruct (Hout (Hall _ Hin)).
Qed.

(** X5: the notifier's one channel send is the confirmation text exactly
    when every eligible member's identifier is in the reporter set (in
    particular when nobody is eligible), and then no direct message is
    attempted; when some eligible member is not in the reporter set the
    one channel send is the reminder, a different text that mentions every
    eligible member outside the reporter set. *)
Theorem confirmation_iff_all_reported (channel : Channel)
    (eligible : list Member) (reporters : gset Z) :
  let absentees := non_reporters eligible reporters in
  let t := fst (notify channel absentees) in
  (channel_sends t = [CONFIRMATION_TEXT]
   <-> forall m, m ∈ eligible -> m_id m ∈ reporters) /\
  ((forall m, m ∈ eligible -> m_id m ∈ reporters) -> dm_attempts t = []) /\
  ((exists m, m ∈ eligible /\ m_id m ∉ reporters) ->
   channel_sends t = [summary_text absentees] /\
   summary_text absentees <> CONFIRMATION_TEXT /\
   forall m, m ∈ eligible -> m_id m ∉ reporters ->
             contains (summary_text absentees) (mention m)).
Proof.
  cbv zeta.
  destruct (notify_shape channel (non_reporters eligible reporters))
    as [Hsent Hdm].
  split; [| split].
  - rewrite <- non_reporters_nil, Hsent.
    destruct (non_reporters eligible reporters) as [| m l];
      cbn [public_text].
    + split; [done |]. intros _. reflexivity.
    + split; [| done]. intros H. exfalso.
      apply (summary_is_not_confirmation (m :: l)). congruence.
  - intros Hall%non_reporters_nil. rewrite Hall in Hdm |- *.
    rewrite notify_nil. reflexivity.
  - intros (m & Hin & Hout).
    assert (m ∈ non_reporters eligible reporters) as Hm
      by by apply non_reporters_elem.
    split; [| split].
    + rewrite Hsent.
      destruct (non_reporters eligible reporters);
        [by apply elem_of_nil in Hm | done].
    + apply summary_is_not_confirmation.
    + intros m' Hin' Hout'. apply summary_text_mentions.
      by apply non_reporters_elem.
Qed.

Lemma confirmation_iff_all_reported_witness :
  channel_sends
    (fst (notify (open_channel None [])
            (non_reporters [alice; bob; carol] {[2]})))
  = [summary_text (non_reporters [alice; bob; carol] {[2]})] /\
  summary_text (non_reporters [alice; bob; carol] {[2]})
  <> CONFIRMATION_TEXT /\
  forall m, m ∈ [alice; bob; carol] -> m_id m ∉ ({[2]} : gset Z) ->
    contains (summary_text (non_reporters [alice; bob; carol] {[2]}))
      (mention m).
Proof.
  apply (confirmation_iff_all_reported (open_channel None [])
           [alice; bob; carol] {[2]}).
  exists alice. split; [left |]. vm_compute. set_solver.
Defined.

(** A permission check that raises anything but [AttributeError] ends the
    member loop at once, with that exception. *)
Lemma permission_error_aborts (before after : list Member)
    (member : Member) (err : option exn) (acc : list Member) (e : exn) :
  Forall check_settles before ->
  bot member = false ->
  read_messages member = Raise e ->
  e <> AttributeError ->
  collect_eligible (before ++ member :: after) err acc = ([], Raised e).
Proof.
  intros Hall Hbot Hr Hne. revert acc.
  induction Hall as [| x rest Hx _ IH]; intros acc; cbn.
  - rewrite Hbot. cbn. unfold _can_read. rewrite Hr.
    destruct e; cbn; done.
  - destruct (bot x) eqn:Hbx; cbn; [apply IH |].
    unfold _can_read.
    destruct Hx as [Hb | [-> | [[|] ->]]]; [congruence | cbn ..];
      by rewrite IH.
Qed.
End RunTheorems.

(** ** The window and the moment of the check *)

Section WindowTiming.

(** The result of [_today_range], spelled out. *)
Lemma today_range_cases now s e :
  valid_datetime now -> _today_range now = Ok (s, e) ->
  exists y m d,
    valid_date y m d /\
    s = mk_datetime y m d 18 0 0 0 (utcoffset now) /\
    e = mk_datetime y m d 23 59 59 0 (utcoffset now) /\
    ((6 <= hour now /\ (y, m, d) = (year now, month now, day now)) \/
     (hour now < 6 /\ _ymd2ord y m d = toordinal now - 1)).
Proof.
  intros (Hdate & _) Hr. unfold _today_range in Hr.
  destruct (Z.ltb_spec (hour now) 6) as [Hlt | Hge].
  - unfold sub_one_day in Hr.
    change (toordinal (replace now 18 0 0 0)) with (toordinal now) in Hr.
    change (toordinal (replace now 23 59 59 0)) with (toordinal now) in Hr.
    destruct (Z.leb_spec (toordinal now) 1) as [? | Hord]; [discriminate |].
    pose proof (prev_day_ordinal _ _ _ Hdate Hord) as Hp. cbn in Hr.
    destruct (prev_day (year now) (month now) (day now)) as [[y m] d].
    destruct Hp as [Hv Ho]. injection Hr as <- <-.
    exists y, m, d. cbn. auto 10.
  - injection Hr as <- <-.
    exists (year now), (month now), (day now). unfold replace. auto 10.
Qed.

(** X8: a window of [_today_range] is 21 599 000 ms long (5 h 59 min 59 s),
    its two bounds are valid datetimes and lie on the same day. *)
Theorem window_length (now s e : datetime) :
  valid_datetime now -> _today_range now = Ok (s, e) ->
  timestamp_ms e - timestamp_ms s = 21599000 /\
  valid_datetime s /\ valid_datetime e /\
  (year s, month s, day s) = (year e, month e, day e).
Proof.
  intros Hv Hr.
  destruct (today_range_cases _ _ _ Hv Hr) as (y & m & d & Hd & -> & -> & _).
  unfold timestamp_ms, toordinal, valid_datetime. cbn.
  repeat split; try lia; apply Hd.
Qed.

(** X9: for a check before 06:00 the window has ended before the check;
    from 06:00 to 17:59 it has not begun; from 18:00 on it has begun and
    the check is less than a second after its end at the latest. *)
Theorem window_position (now s e : datetime) :
  valid_datetime now -> _today_range now = Ok (s, e) ->
  (hour now < 6 -> timestamp_ms e < timestamp_ms now) /\
  (6 <= hour now < 18 -> timestamp_ms now < timestamp_ms s) /\
  (18 <= hour now ->
   timestamp_ms s <= timestamp_ms now <= timestamp_ms e + 999).
Proof.
  intros Hv Hr. pose proof Hv as (_ & Hh & Hmi & Hs & Hus).
  destruct (today_range_cases _ _ _ Hv Hr)
    as (y & m & d & Hd & -> & -> & [[H6 [= -> -> ->]] | [H6 Hord]]);
    unfold timestamp_ms, toordinal in *; cbn;
    repeat split; intros; Z.to_euclidean_division_equations; lia.
Qed.

Lemma history_nil_outside msgs after before :
  whole_seconds after before ->
  (forall m, m ∈ msgs ->
     ~ (timestamp_ms after < snowflake_time (msg_id m) < timestamp_ms before))
  -> history msgs after before = [].
Proof.
  intros [Hwa Hwb] Hout.
  destruct (history msgs after before) as [| m l] eqn:E; [done |].
  assert (m ∈ history msgs after before) as Hm by (rewrite E; left).
  apply history_elem in Hm as [Hin Hb]; [| done ..].
  by destruct (Hout _ Hin).
Qed.

Lemma non_reporters_of_nobody (eligible : list Member) :
  non_reporters eligible ∅ = eligible.
Proof.
  induction eligible as [| m rest IH]; [reflexivity |].
  rewrite non_reporters_cons_out by apply not_elem_of_empty.
  by rewrite IH.
Qed.

(** X10: for a check with the default window started from 06:00 to 17:59,
    no message created up to that moment is read, so every eligible member
    is an absentee. *)
Theorem early_check_flags_everyone (now s e : datetime)
    (msgs : list Message) (eligible : list Member) :
  valid_datetime now -> _today_range now = Ok (s, e) ->
  6 <= hour now < 18 ->
  (forall m, m ∈ msgs -> snowflake_time (msg_id m) <= timestamp_ms now) ->
  history msgs s e = [] /\
  non_reporters eligible (author_ids (history msgs s e)) = eligible.
Proof.
  intros Hv Hr Hh Hpast.
  assert (timestamp_ms now < timestamp_ms s) as Hlt.
  { pose proof Hv as (_ & _ & Hmi & Hs & Hus).
    destruct (today_range_cases _ _ _ Hv Hr)
      as (y & m & d & Hd & -> & -> & [[H6 [= -> -> ->]] | [H6 Hord]]);
      [| lia].
    unfold timestamp_ms, toordinal. cbn.
    Z.to_euclidean_division_equations. lia. }
  assert (history msgs s e = []) as ->.
  { apply history_nil_outside;
      [by apply (today_range_whole_seconds now) |].
    intros m Hm. specialize (Hpast m Hm). lia. }
  split; [done |]. apply non_reporters_of_nobody.
Qed.

End WindowTiming.

(** ** Reporters and permission errors; the runs at concrete inputs *)

(** X6: when the permission check of a member that is no bot raises
    anything but [AttributeError], the run sends nothing and its events are
    the log of the window followed, for a Discord error, by the log of a
    failed member enumeration ("missing permissions" for [Forbidden],
    "failed to fetch members" for [NotFound] and [HTTPException]), after
    which the run returns; any other exception is not logged and leaves
    the run. *)
Theorem permission_error_run (w : World) (cs ce : option datetime)
    (start end_ : datetime) (channel : Channel) (g : Guild)
    (before after : list Member) (member : Member) (e : exn) :
  choose_window (now w) cs ce = Ok (start, end_) ->
  fetch_channel w = Ok channel -> ch_history_error channel = None ->
  guild channel = Some g -> bot_user_available w = true ->
  g_members g = before ++ member :: after ->
  Forall check_settles before ->
  bot member = false -> read_messages member = Raise e ->
  e <> AttributeError ->
  channel_sends (fst (check_reports w cs ce)) = [] /\
  dm_attempts (fst (check_reports w cs ce)) = [] /\
  snd (check_reports w cs ce)
  = (if is_HTTPException e then Ok tt else Raise e) /\
  fst (check_reports w cs ce)
  = Logged (Info_checking start end_ (REPORT_CHANNEL_ID w))
      :: match e with
         | Forbidden => [Logged (Error_members_forbidden (g_id g))]
         | NotFound | HTTPException =>
             [Logged (Error_members_failed (g_id g) e)]
         | _ => []
         end.
Proof.
  intros Hw Hf Hh Hg Hb Hm Hall Hbot Hr Hne.
  unfold check_reports, check_reports_body. rewrite Hw, Hf. cbn.
  unfold collect_reporters. rewrite Hh. cbn. rewrite Hg, Hb. cbn.
  rewrite Hm, (permission_error_aborts _ _ _ _ _ _ Hall Hbot Hr Hne).
  destruct e; cbn; done.
Qed.

Lemma permission_error_run_witness :
  channel_sends (fst (check_reports broken_world None None)) = [] /\
  dm_attempts (fst (check_reports broken_world None None)) = [] /\
  snd (check_reports broken_world None None) = Ok tt /\
  fst (check_reports broken_world None None)
  = [Logged (Info_checking window_start window_end 100);
     Logged (Error_members_forbidden 8)].
Proof.
  apply (permission_error_run broken_world None None window_start
           window_end (open_channel (Some broken_guild) []) broken_guild
           [alice] [carol] broken Forbidden); try reflexivity.
  - constructor; [right; right; by exists true | constructor].
  - discriminate.
Defined.

Lemma history_elem_snowflake msgs after before m :
  m ∈ history msgs after before <->
  m ∈ msgs /\
  time_snowflake after true < msg_id m < time_snowflake before false.
Proof.
  induction msgs as [| x rest IH]; cbn.
  - rewrite elem_of_nil. tauto.
  - destruct (Z.ltb_spec (time_snowflake after true) (msg_id x));
      destruct (Z.ltb_spec (msg_id x) (time_snowflake before false));
      cbn [andb]; rewrite ?elem_of_cons, IH;
      intuition (subst; auto; lia).
Qed.

(** X7: without a history error the reporter set holds exactly the authors
    of the channel's messages, whoever they are, whose identifier lies
    strictly between [time_snowflake(start, high=True)] and
    [time_snowflake(end, high=False)]; when the bounds carry no
    microseconds these are the messages created strictly after the
    millisecond of the start and strictly before that of the end.  With a
    history error the exception is raised. *)
Theorem collect_reporters_spec (channel : Channel) (start end_ : datetime) :
  (ch_history_error channel = None ->
   exists reporters,
     collect_reporters channel start end_ = ([], Normal reporters) /\
     (forall id, id ∈ reporters <->
        exists msg, msg ∈ ch_messages channel /\ author_id msg = id /\
          time_snowflake start true < msg_id msg
          < time_snowflake end_ false) /\
     (whole_seconds start end_ ->
      forall id, id ∈ reporters <->
        exists msg, msg ∈ ch_messages channel /\ author_id msg = id /\
          timestamp_ms start < snowflake_time (msg_id msg)
          < timestamp_ms end_)) /\
  (forall e, ch_history_error channel = Some e ->
             collect_reporters channel start end_ = ([], Raised e)).
Proof.
  unfold collect_reporters. split.
  - intros ->. eexists. split; [reflexivity |]. split.
    + intros id. rewrite author_ids_elem.
      split; intros (msg & H1 & H2); exists msg.
      * apply history_elem_snowflake in H1 as [? ?]. auto.
      * destruct H2 as [? ?]. split; [| done].
        by apply history_elem_snowflake.
    + intros [Hs He] id. rewrite author_ids_elem.
      split; intros (msg & H1 & H2); exists msg.
      * apply history_elem in H1 as [? ?]; auto.
      * destruct H2 as [? ?]. split; [| done]. by apply history_elem.
  - by intros e ->.
Qed.

Lemma collect_reporters_spec_witness :
  exists reporters,
    collect_reporters (open_channel None [at_start; in_between; at_end])
      window_start window_end = ([], Normal reporters) /\
    forall id, id ∈ reporters <->
      exists msg, msg ∈ [at_start; in_between; at_end] /\
        author_id msg = id /\
        timestamp_ms window_start < snowflake_time (msg_id msg)
        < timestamp_ms window_end.
Proof.
  destruct (proj1 (collect_reporters_spec
                     (open_channel None [at_start; in_between; at_end])
                     window_start window_end) eq_refl)
    as (reporters & Hc & _ & Hms).
  exists reporters. split; [exact Hc |]. by apply Hms.
Defined.

Lemma dm_only_to_absentees_witness :
  exists start end_ channel g,
    choose_window (now boundary_world) None None = Ok (start, end_) /\
    fetches_succeed boundary_world channel g /\
    alice ∈ g_members g /\ visible alice /\
    allowed (TARGET_MEMBER_IDS boundary_world) alice /\
    ~ reported channel start end_ alice /\
    exists text,
      channel_sends (fst (check_reports boundary_world None None)) = [text]
      /\ ch_send channel text = Ok tt.
Proof.
  apply (dm_only_to_absentees boundary_world None None alice).
  - intros start end_. apply default_window_whole_seconds. by left.
  - vm_compute. left.
Defined.


Lemma only_public_send_escapes_witness :
  exists cid text,
    last (fst (check_reports muted_world None None))
    = Some (ChannelSend cid text (Raise Forbidden)) /\
    dm_attempts (fst (check_reports muted_world None None)) = [].
Proof.
  apply (only_public_send_escapes muted_world None None Forbidden);
    reflexivity.
Defined.

Lemma one_public_message_witness :
  (length (channel_sends (fst (check_reports boundary_world None None)))
   <= 1)%nat /\
  exists channel g, fetches_succeed boundary_world channel g.
Proof.
  destruct (one_public_message boundary_world None None) as (H1 & H2 & _).
  split; [exact H1 |]. apply H2. discriminate.
Defined.

Lemma window_length_witness :
  timestamp_ms window_end - timestamp_ms window_start = 21599000 /\
  valid_datetime window_start /\ valid_datetime window_end /\
  (year window_start, month window_start, day window_start)
  = (year window_end, month window_end, day window_end).
Proof.
  apply (window_length just_after_midnight window_start window_end).
  - repeat split; vm_compute; easy.
  - reflexivity.
Defined.

Lemma window_position_witness :
  timestamp_ms window_end < timestamp_ms just_after_midnight.
Proof.
  apply (window_position just_after_midnight window_start window_end).
  - repeat split; vm_compute; easy.
  - reflexivity.
  - reflexivity.
Defined.

Lemma early_check_flags_everyone_witness :
  history [at_start; in_between; at_end]
    (mk_datetime 2024 3 1 18 0 0 0 KST)
    (mk_datetime 2024 3 1 23 59 59 0 KST) = [] /\
  non_reporters [alice; bob; carol]
    (author_ids
       (history [at_start; in_between; at_end]
          (mk_datetime 2024 3 1 18 0 0 0 KST)
          (mk_datetime 2024 3 1 23 59 59 0 KST)))
  = [alice; bob; carol].
Proof.
  apply (early_check_flags_everyone mid_morning).
  - repeat split; vm_compute; easy.
  - reflexivity.
  - vm_compute. easy.
  - intros m Hm. repeat (apply elem_of_cons in Hm as [-> | Hm]);
      [vm_compute; discriminate .. | by apply elem_of_nil in Hm].
Defined.

(** ** The entry points *)

Section EntryPoints.

(** X11: the daily loop, which computes the window first and passes it to
    [check_reports], makes the run of [check_reports()] without arguments,
    which is also the run of the [check] command for an administrator. *)
Theorem loop_is_default_run (w : World) :
  check_reports_loop w = check_reports w None None /\
  check true w = Some (check_reports_loop w).
Proof.
  assert (check_reports_loop w = check_reports w None None) as H.
  { unfold check_reports_loop, check_reports, check_reports_body.
    cbn [choose_window]. by destruct (_today_range (now w)) as [[s e] | e]. }
  split; [exact H |]. unfold check. by rewrite H.
Qed.

Lemma custom_bound_absent fromisoformat arg :
  (forall text, ~ given arg text) -> custom_bound fromisoformat arg = Some None.
Proof.
  intros Hno. destruct arg as [text |]; cbn; [| done].
  destruct (String.eqb_spec text EmptyString) as [-> | Hne]; [done |].
  by destruct (Hno text).
Qed.

Lemma custom_bound_given fromisoformat arg text :
  given arg text ->
  custom_bound fromisoformat arg = Some <$> fromisoformat text.
Proof.
  intros [-> Hne]. cbn.
  destruct (String.eqb_spec text EmptyString) as [-> | _]; [done |].
  by destruct (fromisoformat text).
Qed.

(** X12: in one-shot mode, when [--window-start] or [--window-end] is
    absent or empty and what is given parses, the check is the one with the
    default window; when a given argument does not parse, [main] ends with
    [ValueError] before any check, even if that bound would not have been
    used; and without [--once] the arguments are not looked at. *)
Theorem one_shot_partial_window (fromisoformat : string -> option datetime)
    (args : Args) (w : World) :
  ((forall text, ~ given (args_window_start args) text) \/
   (forall text, ~ given (args_window_end args) text) ->
   (forall text, given (args_window_start args) text \/
                 given (args_window_end args) text ->
                 fromisoformat text <> None) ->
   one_shot fromisoformat args w = Checked (check_reports w None None)) /\
  (forall text, given (args_window_start args) text \/
                given (args_window_end args) text ->
                fromisoformat text = None ->
                one_shot fromisoformat args w = ValueError_at_startup) /\
  (args_once args = false -> main fromisoformat args w = None).
Proof.
  split; [| split].
  - intros Hpartial Hparse. unfold one_shot.
    assert (forall arg, (forall text, given arg text ->
                                       fromisoformat text <> None) ->
              exists b, custom_bound fromisoformat arg = Some b /\
                        ((forall text, ~ given arg text) -> b = None))
      as Hb.
    { intros arg Hok. destruct arg as [text |]; cbn; [| by eexists].
      destruct (String.eqb_spec text EmptyString) as [-> | Hne];
        [by eexists |].
      destruct (fromisoformat text) eqn:E.
      - eexists. split; [done |]. intros Hno. by destruct (Hno text).
      - by destruct (Hok text). }
    destruct (Hb (args_window_start args)) as (cs & -> & Hcs); [by eauto |].
    destruct (Hb (args_window_end args)) as (ce & -> & Hce); [by eauto |].
    destruct Hpartial as [Hno | Hno].
    + rewrite (Hcs Hno). by destruct ce.
    + rewrite (Hce Hno). by destruct cs.
  - intros text Hgiven Hbad. unfold one_shot.
    destruct Hgiven as [Hg | Hg].
    + by rewrite (custom_bound_given _ _ _ Hg), Hbad.
    + rewrite (custom_bound_given _ _ _ Hg), Hbad. cbn.
      by destruct (custom_bound fromisoformat (args_window_start args)).
  - unfold main. by intros ->.
Qed.

Lemma step_keeps_loop_ok s ended ready ev :
  loop_ok s ended ready ->
  exists s', step s ev = Some s' /\
    match ev with
    | Ready => loop_ok s' ended true
    | TaskEnds => loop_ok s' (S ended) ready
    end.
Proof.
  destruct s as [t n]. unfold loop_ok. cbn.
  destruct ev, t; cbn; intros H; eexists; (split; [reflexivity |]); cbn;
    intuition lia.
Qed.

Lemma steps_keep_loop_ok evs s ended ready :
  loop_ok s ended ready ->
  exists s', steps s evs = Some s' /\
    loop_ok s' (ended + count_ends evs)
      (ready || bool_decide (Ready ∈ evs)).
Proof.
  revert s ended ready.
  induction evs as [| ev evs IH]; intros s ended ready Hok.
  - exists s. by rewrite Nat.add_0_r, orb_false_r.
  - destruct (step_keeps_loop_ok s ended ready ev Hok) as (s1 & Hs1 & Hok1).
    cbn [steps]. rewrite Hs1. destruct ev.
    + destruct (IH _ _ _ Hok1) as (s' & Hs' & Hok').
      exists s'. split; [done |]. cbn [count_ends].
      rewrite bool_decide_true by left. by rewrite orb_true_r.
    + destruct (IH _ _ _ Hok1) as (s' & Hs' & Hok').
      exists s'. split; [done |]. cbn [count_ends].
      replace (ended + S (count_ends evs))%nat
        with (S ended + count_ends evs)%nat by lia.
      assert (bool_decide (Ready ∈ TaskEnds :: evs)
              = bool_decide (Ready ∈ evs)) as ->; [| done].
      apply bool_decide_ext. rewrite elem_of_cons. intuition congruence.
Qed.

(** X13: whatever the sequence of ready events and ends of the loop task,
    [on_ready] never calls [start] on a running loop (no [RuntimeError]),
    the loop is launched at most once more than its task has ended, at
    least once when the bot was ready, and exactly once, staying alive,
    when its task never ends. *)
Theorem on_ready_keeps_one_loop (evs : list bot_event) :
  exists s, steps initial evs = Some s /\
    (launches s <= S (count_ends evs))%nat /\
    (Ready ∈ evs -> (1 <= launches s)%nat) /\
    (Ready ∈ evs -> count_ends evs = 0%nat ->
     s = {| loop_task := Alive; launches := 1 |}).
Proof.
  destruct (steps_keep_loop_ok evs initial 0 false) as (s & Hs & Hok).
  { by unfold loop_ok. }
  exists s. split; [done |]. cbn in Hok.
  destruct s as [t n]. unfold loop_ok in Hok. cbn in *.
  split; [destruct t; lia |]. split.
  - intros Hr. rewrite bool_decide_true in Hok by done. destruct t; lia.
  - intros Hr H0. rewrite bool_decide_true in Hok by done.
    rewrite H0 in Hok. destruct t; [lia | f_equal; lia | lia].
Qed.

End EntryPoints.

(** ** The allow-list of the configuration *)

Section AllowListParsing.

Lemma split_nonempty sep s : split sep s <> [].
Proof.
  destruct s as [| c rest]; cbn; [done |].
  destruct (Ascii.eqb c sep); [done |]. by destruct (split sep rest).
Qed.

Lemma split_app sep (a b : string) :
  split sep (a +:+ String sep b) = split sep a ++ split sep b.
Proof.
  induction a as [| c a IH].
  - rewrite append_nil_l. cbn. by rewrite Ascii.eqb_refl.
  - rewrite append_cons. cbn. destruct (Ascii.eqb c sep).
    + by rewrite IH.
    + rewrite IH. pose proof (split_nonempty sep a).
      by destruct (split sep a).
Qed.

Lemma ids_of_fields_app l1 l2 :
  ids_of_fields (l1 ++ l2) = ids_of_fields l1 ∪ ids_of_fields l2.
Proof.
  induction l1 as [| uid l1 IH]; cbn.
  - by rewrite (left_id_L ∅ (∪)).
  - destruct (isdigit (strip uid)); [| done].
    by rewrite IH, (assoc_L (∪)).
Qed.

Lemma ids_of_fields_elem fields id :
  id ∈ ids_of_fields fields <->
  exists uid, uid ∈ fields /\ isdigit (strip uid) = true /\
              int (strip uid) = id.
Proof.
  induction fields as [| f rest IH]; cbn.
  - rewrite elem_of_empty. split; [done |].
    intros (uid & H & _). by apply elem_of_nil in H.
  - destruct (isdigit (strip f)) eqn:Hd.
    + rewrite elem_of_union, elem_of_singleton, IH. split.
      * intros [-> | (uid & ? & ? & ?)]; [exists f | exists uid];
          rewrite elem_of_cons; auto.
      * intros (uid & [-> | ?]%elem_of_cons & ? & ?); [by left |].
        right. by exists uid.
    + rewrite IH. split.
      * intros (uid & ? & ? & ?). exists uid. rewrite elem_of_cons. auto.
      * intros (uid & [-> | ?]%elem_of_cons & ? & ?); [congruence |].
        by exists uid.
Qed.

Lemma int_from_nonneg s acc :
  0 <= acc -> string_forall is_digit s = true -> 0 <= int_from acc s.
Proof.
  revert acc. induction s as [| c s IH]; intros acc Hacc; cbn; [done |].
  intros [Hc Hs]%andb_true_iff. apply IH; [| done].
  unfold is_digit in Hc. lia.
Qed.

Lemma isdigit_all s : isdigit s = true -> string_forall is_digit s = true.
Proof. by destruct s. Qed.

End AllowListParsing.

Section Decimal.

(** [int] reads the digits of a decimal numeral as the library's own
    conversion does. *)
Lemma int_from_acc (d : Decimal.uint) (acc : positive) :
  int_from (Z.pos acc) (DecimalString.NilEmpty.string_of_uint d)
  = Z.pos (Pos.of_uint_acc d acc).
Proof.
  revert acc. induction d; intros acc;
    cbn [DecimalString.NilEmpty.string_of_uint int_from Pos.of_uint_acc];
    [done | rewrite <- IHd; f_equal; vm_compute (code _); lia ..].
Qed.

Lemma int_from_zero (d : Decimal.uint) :
  int_from 0 (DecimalString.NilEmpty.string_of_uint d)
  = Z.of_N (Pos.of_uint d).
Proof.
  induction d;
    cbn [DecimalString.NilEmpty.string_of_uint int_from Pos.of_uint Z.of_N];
    [done | exact IHd | rewrite <- int_from_acc; reflexivity ..].
Qed.

Lemma int_str n : int (str n) = Z.of_N n.
Proof.
  unfold int, str. rewrite int_from_zero.
  change (Pos.of_uint (N.to_uint n)) with (N.of_uint (N.to_uint n)).
  by rewrite DecimalN.Unsigned.of_to.
Qed.

Lemma uint_digits d :
  string_forall is_digit (DecimalString.NilEmpty.string_of_uint d) = true.
Proof. induction d; cbn; auto. Qed.

Lemma uint_text_nil d :
  DecimalString.NilEmpty.string_of_uint d = EmptyString -> d = Decimal.Nil.
Proof. by destruct d. Qed.

Lemma str_nonempty n : str n <> EmptyString.
Proof.
  unfold str. intros H%uint_text_nil. destruct n as [| p]; [done |].
  by apply (DecimalPos.Unsigned.to_uint_nonnil p).
Qed.

Lemma isdigit_str n : isdigit (str n) = true.
Proof.
  pose proof (str_nonempty n). unfold isdigit.
  destruct (str n) eqn:E; [done |]. rewrite <- E. apply uint_digits.
Qed.

End Decimal.

Section Fields.

Lemma string_forall_app p (a b : string) :
  string_forall p (a +:+ b) = string_forall p a && string_forall p b.
Proof.
  induction a as [| c a IH]; [done |].
  rewrite append_cons. cbn. by rewrite IH, andb_assoc.
Qed.

Lemma string_forall_impl (p q : Ascii.ascii -> bool) s :
  (forall c, p c = true -> q c = true) ->
  string_forall p s = true -> string_forall q s = true.
Proof.
  intros Hpq. induction s as [| c s IH]; cbn; [done |].
  intros [? ?]%andb_true_iff. apply andb_true_iff. auto.
Qed.

Lemma isspace_code c : isspace c = true -> 9 <= code c <= 32.
Proof. unfold isspace. lia. Qed.

Lemma is_digit_code c : is_digit c = true -> 48 <= code c <= 57.
Proof. unfold is_digit. lia. Qed.

Lemma not_comma_code c : code c <> 44 -> not_comma c = true.
Proof.
  intros Hc. unfold not_comma.
  destruct (Ascii.eqb_spec c comma) as [-> | _]; [| done].
  by destruct Hc.
Qed.

Lemma split_no_comma s :
  string_forall not_comma s = true -> split comma s = [s].
Proof.
  induction s as [| c s IH]; cbn; [done |].
  intros [Hc Hs]%andb_true_iff. unfold not_comma in Hc.
  destruct (Ascii.eqb c comma); [done |]. by rewrite IH.
Qed.

Lemma split_join fields :
  Forall (fun f => string_forall not_comma f = true) fields ->
  fields <> [] -> split comma (join_commas fields) = fields.
Proof.
  induction 1 as [| f [| g rest] Hf Hrest IH]; intros Hne; [done | |].
  - by apply split_no_comma.
  - change (join_commas (f :: g :: rest))
      with (f +:+ String comma (join_commas (g :: rest))).
    rewrite split_app, split_no_comma, IH by done. done.
Qed.

Lemma lstrip_spaces l s :
  string_forall isspace l = true -> lstrip (l +:+ s) = lstrip s.
Proof.
  induction l as [| c l IH]; [done |]. rewrite append_cons. cbn.
  intros [-> ?]%andb_true_iff. auto.
Qed.

Lemma rstrip_spaces r : string_forall isspace r = true -> rstrip r = "".
Proof.
  induction r as [| c r IH]; cbn; [done |].
  intros [-> ?]%andb_true_iff. by rewrite IH.
Qed.

Lemma rstrip_app_spaces s r :
  string_forall isspace r = true -> rstrip (s +:+ r) = rstrip s.
Proof.
  intros Hr. induction s as [| c s IH].
  - rewrite append_nil_l. by apply rstrip_spaces.
  - rewrite append_cons. cbn. by rewrite IH.
Qed.

Lemma rstrip_no_space d : string_forall not_space d = true -> rstrip d = d.
Proof.
  induction d as [| c d IH]; cbn; [done |].
  intros [Hc Hd]%andb_true_iff. rewrite IH by done.
  unfold not_space in Hc. destruct d; [| done].
  by destruct (isspace c).
Qed.

Lemma digits_not_space d :
  string_forall is_digit d = true -> string_forall not_space d = true.
Proof.
  apply string_forall_impl. intros c Hc%is_digit_code.
  unfold not_space, isspace. lia.
Qed.

Lemma strip_digits l d r :
  string_forall isspace l = true -> string_forall isspace r = true ->
  string_forall is_digit d = true ->
  strip (l +:+ d +:+ r) = d.
Proof.
  intros Hl Hr Hd. unfold strip. rewrite lstrip_spaces by done.
  assert (lstrip (d +:+ r) = d +:+ r \/ d = "") as [-> | ->].
  { destruct d as [| c d]; [by right |]. left.
    rewrite append_cons. cbn. cbn in Hd.
    apply andb_true_iff in Hd as [Hc%is_digit_code _].
    unfold isspace.
    destruct ((9 <=? code c) && (code c <=? 13)
              || (28 <=? code c) && (code c <=? 32)) eqn:E; [lia | done]. }
  - rewrite rstrip_app_spaces by done.
    by apply rstrip_no_space, digits_not_space.
  - rewrite append_nil_l.
    assert (lstrip r = "") as ->; [| done].
    clear -Hr. induction r as [| c r IH]; cbn; [done |].
    cbn in Hr. apply andb_true_iff in Hr as [-> ?]. auto.
Qed.

Lemma padded_no_comma l n r :
  string_forall isspace l = true -> string_forall isspace r = true ->
  string_forall not_comma (padded l n r) = true.
Proof.
  intros Hl Hr. unfold padded. rewrite !string_forall_app.
  repeat (apply andb_true_iff; split).
  - revert Hl. apply string_forall_impl.
    intros c Hc%isspace_code. apply not_comma_code. lia.
  - assert (string_forall is_digit (str n) = true) as Hd
      by apply isdigit_all, isdigit_str.
    revert Hd. apply string_forall_impl.
    intros c Hc%is_digit_code. apply not_comma_code. lia.
  - revert Hr. apply string_forall_impl.
    intros c Hc%isspace_code. apply not_comma_code. lia.
Qed.

End Fields.

Section AllowListTheorems.

Lemma ids_of_written_fields (fs : list (string * N * string)) :
  Forall field_ok fs ->
  ids_of_fields (map field_text fs) = list_to_set (map field_id fs).
Proof.
  induction 1 as [| [[l n] r] fs [Hl Hr] _ IH]; [done |].
  cbn [fst snd] in Hl, Hr.
  change (ids_of_fields (map field_text ((l, n, r) :: fs)))
    with (if isdigit (strip (padded l n r))
          then {[ int (strip (padded l n r)) ]}
               ∪ ids_of_fields (map field_text fs)
          else ids_of_fields (map field_text fs)).
  unfold padded.
  rewrite strip_digits by (done || apply isdigit_all, isdigit_str).
  by rewrite isdigit_str, int_str, IH.
Qed.

Lemma parse_some value :
  parse_target_member_ids (Some value) = ids_of_fields (split comma value).
Proof. reflexivity. Qed.

(** X14: a value made of decimal numbers separated by commas, each with
    optional white space around it, is read as exactly the set of these
    numbers. *)
Theorem parse_written_ids (fs : list (string * N * string)) :
  Forall field_ok fs ->
  in_model (join_commas (map field_text fs)) ->
  parse_target_member_ids (Some (join_commas (map field_text fs)))
  = list_to_set (map field_id fs).
Proof.
  intros Hok _. rewrite parse_some.
  destruct fs as [| f fs]; [done |].
  rewrite split_join; [by apply ids_of_written_fields | | done].
  apply Forall_fmap. eapply Forall_impl; [exact Hok |].
  intros [[l n] r] [Hl Hr]. by apply padded_no_comma.
Qed.

(** X15: the allow-list of two values joined by a comma is the union of
    their allow-lists, and the joined value is again in the model. *)
Theorem parse_concat (a b : string) :
  in_model a -> in_model b ->
  in_model (a +:+ String comma b) /\
  parse_target_member_ids (Some (a +:+ String comma b))
  = parse_target_member_ids (Some a) ∪ parse_target_member_ids (Some b).
Proof.
  intros [Ha1 Ha2] [Hb1 Hb2]. split.
  - split.
    + rewrite string_forall_app. cbn. by rewrite Ha1, Hb1.
    + rewrite split_app. by apply Forall_app.
  - by rewrite !parse_some, split_app, ids_of_fields_app.
Qed.

(** X16: every identifier of the allow-list is non-negative and is the
    value of a field that, stripped, is a non-empty string of digits. *)
Theorem parsed_ids (value : string) (id : Z) :
  in_model value ->
  id ∈ parse_target_member_ids (Some value) ->
  0 <= id /\
  exists uid, uid ∈ split comma value /\ isdigit (strip uid) = true /\
              int (strip uid) = id.
Proof.
  intros _. rewrite parse_some.
  intros (uid & Hin & Hd & <-)%ids_of_fields_elem.
  split; [| by exists uid].
  apply int_from_nonneg; [done | by apply isdigit_all].
Qed.

(** X17: when no field of the value is a number (names, signed numbers,
    numbers with underscores, empty fields), the allow-list is empty and
    the eligible list is left unrestricted. *)
Theorem junk_allow_list_disables_filter (value : string)
    (eligible : list Member) :
  in_model value ->
  (forall uid, uid ∈ split comma value -> isdigit (strip uid) = false) ->
  parse_target_member_ids (Some value) = ∅ /\
  restrict_to_targets (parse_target_member_ids (Some value)) eligible
  = eligible.
Proof.
  intros _ Hjunk.
  assert (parse_target_member_ids (Some value) = ∅) as ->.
  { rewrite parse_some.
    apply leibniz_equiv. intros id. rewrite elem_of_empty. split; [| done].
    intros (uid & Hin & Hd & _)%ids_of_fields_elem.
    rewrite (Hjunk _ Hin) in Hd. discriminate. }
  split; [done |]. unfold restrict_to_targets.
  by destruct (decide (∅ = ∅)).
Qed.

End AllowListTheorems.

Ltac in_model_here :=
  split;
  [reflexivity
  | repeat (apply List.Forall_cons; [apply Nat.leb_le; reflexivity |]);
    apply List.Forall_nil].

Example written_fields_text :
  join_commas (map field_text written_fields) = " 1,3 ".
Proof. reflexivity. Qed.

Lemma parse_written_ids_witness :
  parse_target_member_ids (Some " 1,3 ") = list_to_set [1; 3].
Proof.
  apply (parse_written_ids written_fields).
  - repeat constructor.
  - in_model_here.
Defined.

Lemma parse_concat_witness :
  in_model "1, x" /\ in_model "3" /\
  in_model "1, x,3" /\
  parse_target_member_ids (Some "1, x,3")
  = parse_target_member_ids (Some "1, x")
    ∪ parse_target_member_ids (Some "3").
Proof.
  assert (in_model "1, x") as Ha by in_model_here.
  assert (in_model "3") as Hb by in_model_here.
  split; [exact Ha |]. split; [exact Hb |].
  exact (parse_concat "1, x" "3" Ha Hb).
Defined.

Lemma parsed_ids_witness :
  0 <= 3 /\
  exists uid, uid ∈ split comma "1, 3" /\ isdigit (strip uid) = true /\
              int (strip uid) = 3.
Proof.
  apply (parsed_ids "1, 3" 3).
  - in_model_here.
  - vm_compute. set_solver.
Defined.

Lemma junk_allow_list_disables_filter_witness :
  parse_target_member_ids (Some "alice, -5,1_0,") = ∅ /\
  restrict_to_targets (parse_target_member_ids (Some "alice, -5,1_0,"))
    [alice; bob] = [alice; bob].
Proof.
  apply (junk_allow_list_disables_filter "alice, -5,1_0," [alice; bob]).
  - in_model_here.
  - intros uid Hin. vm_compute in Hin.
    repeat (apply elem_of_cons in Hin as [-> | Hin]); try reflexivity.
    by apply elem_of_nil in Hin.
Defined.

Lemma one_shot_partial_window_witness :
  one_shot parse_one start_only boundary_world
  = Checked (check_reports boundary_world None None).
Proof.
  apply (one_shot_partial_window parse_one start_only boundary_world).
  - right. intros text [H _]. discriminate.
  - intros text [[[= <-] _] | [H _]]; [| discriminate]. discriminate.
Defined.

Lemma on_ready_keeps_one_loop_witness :
  exists s, steps initial [Ready; Ready; Ready] = Some s /\
    s = {| loop_task := Alive; launches := 1 |}.
Proof.
  destruct (on_ready_keeps_one_loop [Ready; Ready; Ready])
    as (s & Hs & _ & _ & Hone).
  exists s. split; [exact Hs |]. apply Hone; [left | reflexivity].
Defined.
